(** * The InfluxDB storage adapter of aw-core

    A shallow embedding of [aw_datastore/storages/influxdb.py]
    (class [InfluxDBStorage]) together with a model of the time-series
    backend it talks to, and the properties of the adapter that the
    design document states.

    Conventions of the embedding:
    - a Python dict used as a map is a [gmap string value];
    - a Python exception is the [Raise] branch of [result];
    - the remote database is threaded explicitly: a method of the adapter
      is a function [db -> result A * db] (the monad [M]);
    - a float is the rational ([Q]) that the double denotes, and an
      operation on floats rounds its result to the nearest double
      ([round_double]);
    - a [datetime] is the number of milliseconds since the epoch, the
      precision the adapter fixes in [__init__]. *)

From stdpp Require Import base option list gmap sets strings sorting.
From Stdlib Require Import ZArith QArith Lia.

Open Scope Z_scope.

(** ** Python values *)

Inductive value :=
  | VNone
  | VBool (b : bool)
  | VInt (n : Z)
  | VFloat (q : Q)
  | VStr (s : string).

#[global] Instance Q_eq_dec : EqDecision Q.
Proof. solve_decision. Defined.

#[global] Instance value_eq_dec : EqDecision value.
Proof. solve_decision. Defined.

(** Truth value of a scalar, as [if v:] tests it. *)
Definition truthy (v : value) : bool :=
  match v with
  | VNone => false
  | VBool b => b
  | VInt n => negb (n =? 0)
  | VFloat q => negb (Qnum q =? 0)
  | VStr s => negb (String.eqb s "")
  end.

Abbreviation dict := (gmap string value).

(** ** Exceptions and results *)

(** The Python exceptions the adapter can raise, and the two error kinds
    the design document names ([NotFoundError], [IntegrityError]). *)
Inductive exn :=
  | StopIteration
  | ValueError
  | KeyError
  | IndexError
  | TypeError
  | NotFoundError
  | IntegrityError.

Inductive result (A : Type) :=
  | Ok (a : A)
  | Raise (e : exn).
Arguments Ok {A} a.
Arguments Raise {A} e.

Definition rbind {A B} (r : result A) (k : A → result B) : result B :=
  match r with
  | Ok a => k a
  | Raise e => Raise e
  end.

(** [d[k]]: a missing key raises [KeyError]. *)
Definition getitem (d : dict) (k : string) : result value :=
  match d !! k with
  | Some v => Ok v
  | None => Raise KeyError
  end.

Definition underscore : Ascii.ascii := Ascii.Ascii true true true true true false true false.

(** [s[0]]: the first character; the empty string raises [IndexError]. *)
Definition first_char (s : string) : result Ascii.ascii :=
  match s with
  | EmptyString => Raise IndexError
  | String c _ => Ok c
  end.

(** ** Time *)

(** Milliseconds since 1970-01-01T00:00:00Z. *)
Definition datetime := Z.

(** A [timedelta] is a whole number of microseconds. *)
Definition timedelta := Z.

(** Round to the nearest integer, ties to the even one. *)
Definition round_half_even (q : Q) : Z :=
  let n := Qnum q in
  let d := Zpos (Qden q) in
  let fl := (2 * n + d) / (2 * d) in
  if ((2 * n + d) mod (2 * d) =? 0) && Z.odd fl then fl - 1 else fl.

(** *** Floating point

    A [float] is a double: 53 bits of significand.  It is modelled by the
    rational it denotes, and an operation on floats is the exact
    operation followed by [round_double], rounding to the nearest double
    with ties to the even significand.  Infinities and NaN are left out:
    a time span is far below the overflow threshold. *)

(** [floor (log2 (n / d))], for [0 < n]. *)
Definition ilog2 (n : Z) (d : positive) : Z :=
  let k0 := Z.log2 n - Z.log2 (Zpos d) in
  if (if 0 <=? k0 then 2 ^ k0 * Zpos d <=? n else Zpos d <=? n * 2 ^ (- k0))
  then k0 else k0 - 1.

(** The double nearest to [n / d], for [0 < n]: a multiple of [2 ^ e],
    where [e] is the exponent of the last bit of the significand
    ([-1074] for the subnormal numbers). *)
Definition round_pos (n : Z) (d : positive) : Q :=
  let e := Z.max (ilog2 n d - 52) (-1074) in
  if 0 <=? e
  then inject_Z (round_half_even (Qmake n (d * Z.to_pos (2 ^ e))) * 2 ^ e)
  else Qmake (round_half_even (Qmake (n * 2 ^ (- e)) d)) (Z.to_pos (2 ^ (- e))).

Definition round_double (q : Q) : Q :=
  match Qnum q with
  | 0 => 0%Q
  | Zpos _ => round_pos (Qnum q) (Qden q)
  | Zneg _ => Qopp (round_pos (- Qnum q) (Qden q))
  end.

(** [timedelta.total_seconds()]: the microseconds divided by [10**6], a
    true division of two integers, which gives the nearest float. *)
Definition total_seconds (d : timedelta) : Q := round_double (Qmake d 1000000).

(** [timedelta(seconds=q)]: [math.modf] splits [q] into its integral
    part, which gives whole seconds, and its fraction; the fraction is
    multiplied by [1e6], a product of floats, and rounded to a whole
    number of microseconds. *)
Definition timedelta_of_seconds (q : Q) : timedelta :=
  let whole := Z.quot (Qnum q) (Zpos (Qden q)) in
  let frac_us := Qmake ((Qnum q - whole * Zpos (Qden q)) * 1000000) (Qden q) in
  whole * 1000000 + round_half_even (round_double frac_us).

(** [timedelta(milliseconds=n)] *)
Definition timedelta_of_milliseconds (n : Z) : timedelta := n * 1000.

Definition epoch_origin : datetime := 0.

(** [datetime + timedelta], at millisecond resolution. *)
Definition datetime_add (t : datetime) (d : timedelta) : datetime :=
  t + d / 1000.

(** An ISO-8601 string together with the instant it denotes: the form in
    which [create_bucket] receives [created]. *)
Record iso_time := IsoTime { iso_text : string; iso_instant : datetime }.

(** ** Events *)

(** Modelled from the spec: the class [Event] of [aw_core.models] is not
    among the sources.  Section 3 of the design document gives it an
    identity [id] (absent until the backend assigns one), a [timestamp],
    a [duration] (a time span) and [data], a mapping from attribute names
    to scalar values. *)
Record Event := mkEvent {
  id : option Z;
  timestamp : datetime;
  duration : timedelta;
  data : dict
}.

#[global] Instance Event_eq_dec : EqDecision Event.
Proof. solve_decision. Defined.

Definition set_id (i : option Z) (e : Event) : Event :=
  mkEvent i (timestamp e) (duration e) (data e).

(** A value read as a number of seconds; a [bool] is a number, [True]
    being one and [False] zero. *)
Definition seconds_of (d : value) : option Q :=
  match d with
  | VFloat q => Some q
  | VInt n => Some (inject_Z n)
  | VBool b => Some (inject_Z (if b then 1 else 0))
  | _ => None
  end.

(** Modelled from the spec: the constructor [Event(id, timestamp,
    duration, data)] called with a number of seconds read from the
    backend; "set the event's duration from the duration field"
    (section 4.3).  What the constructor does with a duration that is no
    number is given neither by the sources nor by the design document:
    here it fails, and nothing below says how. *)
Definition Event_new (i : option Z) (t : datetime) (d : value) (m : dict)
  : result Event :=
  match seconds_of d with
  | Some q => Ok (mkEvent i t (timedelta_of_seconds q) m)
  | None => Raise TypeError
  end.

Definition id_value (i : option Z) : value :=
  match i with
  | Some n => VInt n
  | None => VNone
  end.

(** ** The backend: a model of the time-series service *)

Module InfluxDBClient.

(** A point as handed to [write_points]: the dict with the four keys
    [measurement], [tags], [time] and [fields]. *)
Record point := Point {
  measurement : string;
  tags : dict;
  time : Z;
  fields : dict
}.

#[global] Instance point_eq_dec : EqDecision point.
Proof. solve_decision. Defined.

(** Iterating over that dict yields its keys. *)
Definition point_keys (p : point) : list string :=
  ["measurement"; "tags"; "time"; "fields"].

(** The database: the stored points.  A point is identified by its
    measurement, its tag set and its time. *)
Abbreviation db := (list point).

Definition same_key (p q : point) : bool :=
  bool_decide (measurement p = measurement q ∧ tags p = tags q ∧ time p = time q).

Definition storable (kv : string * value) : Prop :=
  kv.1 ≠ "" ∧ kv.2 ≠ VNone.

#[global] Instance storable_dec kv : Decision (storable kv).
Proof. unfold storable. apply _. Defined.

(** A tag is written as text, and a tag whose text is empty is left out. *)
Definition tag_storable (kv : string * value) : Prop :=
  storable kv ∧ kv.2 ≠ VStr "".

#[global] Instance tag_storable_dec kv : Decision (tag_storable kv).
Proof. unfold tag_storable. apply _. Defined.

(** The line protocol carries neither null values nor empty keys, and no
    tag with an empty value.  The text of a tag that is no string is not
    modelled: such a tag keeps its value here, and what is stated about
    the key of a written event is stated for string tags. *)
Definition normalise (p : point) : point :=
  Point (measurement p) (filter tag_storable (tags p)) (time p)
        (filter storable (fields p)).

(** A point written over an existing one keeps the fields the new
    write does not mention; on the others the later write wins. *)
Definition merge_point (new old : point) : point :=
  Point (measurement old) (tags old) (time old) (fields new ∪ fields old).

Fixpoint upsert (p : point) (d : db) : db :=
  match d with
  | [] => [p]
  | q :: d' => if same_key p q then merge_point p q :: d' else q :: upsert p d'
  end.

Definition write_points (points : list point) (d : db) : db :=
  foldl (λ acc p, upsert (normalise p) acc) d points.

Definition delete_series (m : string) (d : db) : db :=
  filter (λ p, measurement p ≠ m) d.

(** *** Queries *)

Inductive projection :=
  | Star
  | Count (field : string)
  | Last (field : string).

Inductive condition :=
  | TimeGe (t : datetime)
  | TimeLe (t : datetime)
  | TagEq (k : string) (v : string)
  | FieldEq (k : string) (v : value).

Record select := Select {
  what : projection;
  from : string;
  where_ : list condition;
  descending : bool;
  limit : option Z
}.

(** One record of a result, as [get_points] yields it when the query is
    made with [epoch="ms"]: the time key is an integer, the other
    columns are in [columns]. *)
Record row := Row { row_time : Z; columns : dict }.

#[global] Instance row_eq_dec : EqDecision row.
Proof. solve_decision. Defined.

(** The record as the dict the adapter sees. *)
Definition as_dict (r : row) : dict :=
  <["time" := VInt (row_time r)]> (columns r).

Definition field_of (f : string) (p : point) : option value :=
  match fields p !! f with
  | Some VNone => None
  | o => o
  end.

Definition holds (c : condition) (p : point) : bool :=
  match c with
  | TimeGe t => t <=? time p
  | TimeLe t => time p <=? t
  | TagEq k v => bool_decide (tags p !! k = Some (VStr v))
  | FieldEq k v => bool_decide (field_of k p = Some v)
  end.

Definition earlier (p q : point) : Prop := time p ≤ time q.
Definition later (p q : point) : Prop := time q ≤ time p.

#[global] Instance earlier_dec p q : Decision (earlier p q).
Proof. unfold earlier. apply _. Defined.
#[global] Instance later_dec p q : Decision (later p q).
Proof. unfold later. apply _. Defined.

(** The points of a measurement that satisfy every condition. *)
Definition matching (m : string) (cs : list condition) (d : db) : list point :=
  filter (λ p, measurement p = m ∧ forallb (λ c, holds c p) cs = true) d.

Definition ordered (desc : bool) (ps : list point) : list point :=
  if desc then merge_sort later ps else merge_sort earlier ps.

Definition limited {A} (n : option Z) (l : list A) : list A :=
  match n with
  | Some k => take (Z.to_nat k) l
  | None => l
  end.

(** The column names of a result: every field and tag key that occurs. *)
Definition column_names (ps : list point) : gset string :=
  foldr (λ p acc, dom (fields p) ∪ dom (tags p) ∪ acc) ∅ ps.

(** [SELECT *]: a column a point lacks is null in its record. *)
Definition row_of (cols : gset string) (p : point) : row :=
  Row (time p) (fields p ∪ tags p ∪ gset_to_gmap VNone cols).

Definition has_field (f : string) (p : point) : Prop := is_Some (field_of f p).

#[global] Instance has_field_dec f p : Decision (has_field f p).
Proof. unfold has_field. apply _. Defined.

Definition query (q : select) (d : db) : list row :=
  let ps := matching (from q) (where_ q) d in
  match what q with
  | Star =>
      let ps := ordered (descending q) ps in
      limited (limit q) (row_of (column_names ps) <$> ps)
  | Count f =>
      let n := length (filter (has_field f) ps) in
      if decide (n = 0%nat) then []
      else [Row 0 {["count" := VInt (Z.of_nat n)]}]
  | Last f =>
      match last (merge_sort earlier (filter (has_field f) ps)) with
      | Some p => [Row (time p) {["last" := default VNone (field_of f p)]}]
      | None => []
      end
  end.

(** The statement [DELETE FROM m WHERE c LIMIT 1].  The design document
    lists delete-by-field-predicate among the operations of the service
    (section 6), and has the statement delete "at most one record
    matching the given id field, scoped to the bucket's series" (section
    4.4).  Which of several matching points goes is fixed by neither the
    sources nor that document: the first stored one is this model's
    choice, and nothing below depends on it. *)
Fixpoint delete_first (m : string) (c : condition) (d : db) : db :=
  match d with
  | [] => []
  | p :: d' =>
      if bool_decide (measurement p = m) && holds c p then d'
      else p :: delete_first m c d'
  end.

End InfluxDBClient.
Import InfluxDBClient.

(** ** The adapter's monad: database state and exceptions *)

Definition M (A : Type) : Type := db → result A * db.

Definition ret {A} (a : A) : M A := λ d, (Ok a, d).

Definition raise {A} (e : exn) : M A := λ d, (Raise e, d).

Definition bind {A B} (m : M A) (k : A → M B) : M B :=
  λ d, match m d with
       | (Ok a, d') => k a d'
       | (Raise e, d') => (Raise e, d')
       end.

Definition lift {A} (r : result A) : M A := λ d, (r, d).

Notation "'do' x <- m ; k" := (bind m (λ x, k))
  (at level 10, x name, m at level 100, k at level 200).
Notation "'try' x <- r ; k" := (rbind r (λ x, k))
  (at level 10, x name, r at level 100, k at level 200).

(** [self.db.query(query=..., epoch=self.time_precision).get_points()] *)
Definition db_query (q : select) : M (list row) := λ d, (Ok (query q d), d).

(** [self.db.write_points(points=..., time_precision=self.time_precision)] *)
Definition db_write_points (points : list point) : M unit :=
  λ d, (Ok tt, write_points points d).

(** [self.db.query] with a [DELETE ... LIMIT 1] statement. *)
Definition db_delete (m : string) (c : condition) : M unit :=
  λ d, (Ok tt, delete_first m c d).

Definition db_delete_series (m : string) : M unit :=
  λ d, (Ok tt, delete_series m d).

(** [a, b = xs]: anything but two items is a [ValueError]. *)
Definition unpack2 {A} (xs : list A) : result (A * A) :=
  match xs with
  | [a; b] => Ok (a, b)
  | _ => Raise ValueError
  end.

(** ** class InfluxDBStorage *)

(** [self.tags], set in [__init__]. *)
Definition self_tags : list string := ["app"; "status"].

Definition create_bucket (bucket_id type_id client hostname : string)
    (created : iso_time) (name : option string) : M unit :=
  let metadata :=
    [Point "metadata"
       {[ "id" := VStr bucket_id; "_id" := VStr "metadata" ]}
       (iso_instant created)
       {[ "name" := from_option VStr VNone name;
          "type" := VStr type_id;
          "client" := VStr client;
          "hostname" := VStr hostname;
          "created" := VStr (iso_text created) ]}] in
  do _ <- db_write_points metadata;
  let dummyevent := [Point bucket_id ∅ 0 {[ "duration" := VFloat (Qmake 0 1) ]}] in
  db_write_points dummyevent.

Definition delete_bucket (bucket_id : string) : M unit :=
  db_delete_series bucket_id.

(** The body of the inner loop of [_event_parser_from], for one key of
    the record and the value [event[key]] found under it. *)
Definition copy_field (key : string) (v : value) (acc : result dict) : result dict :=
  try mapped_data <- acc;
  if bool_decide (key ∉ ["time"; "duration"]) then
    try c <- first_char key;
    if bool_decide (c ≠ underscore) then
      if truthy v then Ok (<[key := v]> mapped_data) else Ok mapped_data
    else Ok mapped_data
  else Ok mapped_data.

(** The body of the outer loop: one record to one event. *)
Definition parse_event (event : row) : result Event :=
  let epoch := row_time event in
  let final_datetime :=
    datetime_add epoch_origin (timedelta_of_milliseconds epoch) in
  try d <- getitem (as_dict event) "duration";
  try mapped <- Event_new (Some (row_time event)) final_datetime d ∅;
  try mapped_data <- map_fold copy_field (Ok (data mapped)) (as_dict event);
  Ok (mkEvent (id mapped) (timestamp mapped) (duration mapped) mapped_data).

Fixpoint _event_parser_from (influxdb_result : list row) : result (list Event) :=
  match influxdb_result with
  | [] => Ok []
  | event :: rest =>
      try mapped <- parse_event event;
      try results <- _event_parser_from rest;
      Ok (mapped :: results)
  end.

(** The body of the loop of [_event_parser_to]. *)
Definition add_attribute (key : string) (v : value) (data : point) : point :=
  let data :=
    if bool_decide (key ∈ self_tags)
    then Point (measurement data) (<["_" +:+ key := v]> (tags data))
               (time data) (fields data)
    else data in
  Point (measurement data) (tags data) (time data) (<[key := v]> (fields data)).

Definition _event_parser_to (bucket_id : string) (event : Event) : point :=
  let event_data := data event in
  let data := Point bucket_id ∅ (timestamp event) {[ "id" := id_value (id event) ]} in
  let data := Point (measurement data) (tags data) (time data)
                (<["duration" := VFloat (total_seconds (duration event))]> (fields data)) in
  map_fold add_attribute data event_data.

Definition get_metadata (bucket_id : string) : M dict :=
  let query := Select Star "metadata" [TagEq "id" bucket_id] false None in
  do generator <- db_query query;
  match generator with
  | metadata :: _ => ret (as_dict metadata)
  | [] => raise StopIteration
  end.

Definition add_where (c : condition) (q : select) : select :=
  Select (what q) (from q) (where_ q ++ [c]) (descending q) (limit q).

Definition get_events (bucket_id : string) (limit : Z)
    (starttime endtime : option datetime) : M (list Event) :=
  let query := Select Star bucket_id [] false None in
  let query :=
    if bool_decide (is_Some endtime) || bool_decide (is_Some starttime) then
      let query :=
        match starttime with
        | Some _starttime => add_where (TimeGe _starttime) query
        | None => query
        end in
      match endtime with
      | Some _endtime => add_where (TimeLe _endtime) query
      | None => query
      end
    else query in
  let query := Select (what query) (from query) (where_ query) true (InfluxDBClient.limit query) in
  let query :=
    if negb (limit =? 0) && (-1 <? limit)
    then Select (what query) (from query) (where_ query) (descending query) (Some limit)
    else query in
  do result <- db_query query;
  lift (_event_parser_from result).

Definition get_eventcount (bucket_id : string)
    (starttime endtime : option datetime) : M value :=
  let query := Select (Count "id") bucket_id [] false None in
  do generator <- db_query query;
  lift (foldl (λ result item, try _ <- result; getitem (as_dict item) "count")
              (Ok (VInt 0)) generator).

Definition _get_last_event_id (bucket_id : string) : M (option Z) :=
  let query := Select (Last "id") bucket_id [] false None in
  do generator <- db_query query;
  ret (foldl (λ result item, Some (row_time item)) None generator).

Definition insert_one (bucket_id : string) (event : Event) : M Event :=
  let data := _event_parser_to bucket_id event in
  do _ <- db_write_points [data];
  do last_id <- _get_last_event_id bucket_id;
  ret (set_id last_id event).

(** The loop of [insert_many]: the point that [_event_parser_to] returns
    is unpacked into two names, which iterates over its four keys. *)
Fixpoint insert_many_loop (bucket_id : string) (events : list Event)
    (bulk : list string) : result (list string) :=
  match events with
  | [] => Ok bulk
  | event :: rest =>
      try unpacked <- unpack2 (point_keys (_event_parser_to bucket_id event));
      insert_many_loop bucket_id rest (bulk ++ [unpacked.1])
  end.

(** A [bulk] that holds anything is a list of strings, which the client
    cannot read as points. *)
Definition insert_many (bucket_id : string) (events : list Event) : M unit :=
  do bulk <- lift (insert_many_loop bucket_id events []);
  match bulk with
  | [] => db_write_points []
  | _ :: _ => raise TypeError
  end.

(** The method ends without a [return]: its value is [None]. *)
Definition delete (bucket_id : string) (event_id : Z) : M value :=
  do _ <- db_delete bucket_id (FieldEq "id" (VInt event_id));
  ret VNone.

Definition replace (bucket_id : string) (event_id : Z) (event : Event) : M Event :=
  let event := set_id (Some event_id) event in
  insert_one bucket_id event.

Definition replace_last (bucket_id : string) (event : Event) : M Event :=
  do last_id <- _get_last_event_id bucket_id;
  let event := set_id last_id event in
  insert_one bucket_id event.

(** [get_list_measurements] *)
Definition list_measurements (d : db) : list string :=
  remove_dups (measurement <$> d).

(** The body of the loop of [buckets]. *)
Definition buckets_step (acc : M (gmap string dict)) (bucket_id : string)
  : M (gmap string dict) :=
  do buckets <- acc;
  if bool_decide (bucket_id ≠ "metadata")
  then do metadata <- get_metadata bucket_id;
       ret (<[bucket_id := metadata]> buckets)
  else ret buckets.

Definition buckets : M (gmap string dict) :=
  do bucketnames <- (λ d, (Ok (list_measurements d), d));
  foldl buckets_step (ret ∅) bucketnames.

(** ** Auxiliary notions used in the statements *)

(** The points of a bucket. *)
Definition series (bucket_id : string) (d : db) : list point :=
  filter (λ p, measurement p = bucket_id) d.

Definition is_number (v : value) : bool := bool_decide (is_Some (seconds_of v)).

(** A point every record of which [_event_parser_from] can read: it has a
    numeric [duration] and no empty field or tag name. *)
Definition point_ok (p : point) : Prop :=
  from_option is_number false (fields p !! "duration") = true
  ∧ fields p !! "" = None ∧ tags p !! "" = None.

#[global] Instance point_ok_dec p : Decision (point_ok p).
Proof. unfold point_ok. apply _. Defined.

Definition bucket_ok (bucket_id : string) (d : db) : Prop :=
  Forall point_ok (series bucket_id d).

#[global] Instance bucket_ok_dec b d : Decision (bucket_ok b d).
Proof. unfold bucket_ok. apply _. Defined.

Definition row_ok (r : row) : Prop :=
  from_option is_number false (columns r !! "duration") = true
  ∧ columns r !! "" = None.

#[global] Instance row_ok_dec r : Decision (row_ok r).
Proof. unfold row_ok. apply _. Defined.

Definition starts_with_underscore (s : string) : bool :=
  match s with
  | String c _ => bool_decide (c = underscore)
  | EmptyString => false
  end.

(** What the inner loop of [_event_parser_from] lets through. *)
Definition kept (kv : string * value) : Prop :=
  (fst kv ∉ ["time"; "duration"]) ∧ starts_with_underscore (fst kv) = false
  ∧ truthy (snd kv) = true.

#[global] Instance kept_dec kv : Decision (kept kv).
Proof. unfold kept. apply _. Defined.

(** What [parse_event] makes of a record it can read. *)
Definition decoded (r : row) (e : Event) : Prop :=
  id e = Some (row_time r)
  ∧ timestamp e = row_time r
  ∧ timedelta_of_seconds <$> (columns r !! "duration" ≫= seconds_of) = Some (duration e)
  ∧ data e = filter kept (as_dict r).

(** The conditions and the limit clause of the query of [get_events]. *)
Definition time_bounds (starttime endtime : option datetime) : list condition :=
  from_option (λ t, [TimeGe t]) [] starttime ++ from_option (λ t, [TimeLe t]) [] endtime.

Definition limit_clause (limit : Z) : option Z :=
  if decide (0 < limit) then Some limit else None.

Definition is_metadata_of (bucket_id : string) (p : point) : Prop :=
  measurement p = "metadata" ∧ tags p !! "id" = Some (VStr bucket_id).

#[global] Instance is_metadata_of_dec b p : Decision (is_metadata_of b p).
Proof. unfold is_metadata_of. apply _. Defined.

Definition newest_first (e1 e2 : Event) : Prop := timestamp e2 ≤ timestamp e1.

(** Encode, store in an empty database, read back, decode. *)
Definition round_trip (bucket_id : string) (event : Event) : result (list Event) :=
  (get_events bucket_id (-1) None None
     (write_points [_event_parser_to bucket_id event] [])).1.

(** A point with the measurement, tag set and time of [p] is stored. *)
Definition stored_key (p : point) (d : db) : Prop :=
  Exists (λ q, same_key p q = true) d.

#[global] Instance stored_key_dec p d : Decision (stored_key p d).
Proof. unfold stored_key. apply _. Defined.

Definition is_text (v : value) : bool :=
  match v with
  | VStr _ => true
  | _ => false
  end.

(** The attributes of an event that become tags are strings, where the
    event has them. *)
Definition text_tags (event : Event) : Prop :=
  Forall (λ key, from_option is_text true (data event !! key) = true) self_tags.

(** The event that the sentinel point of a bucket decodes to. *)
Definition sentinel : Event := mkEvent (Some 0) 0 0 ∅.

(** Whether an event's timestamp lies within the optional bounds. *)
Definition within (starttime endtime : option datetime) (e : Event) : Prop :=
  from_option (λ t, t ≤ timestamp e) True starttime
  ∧ from_option (λ t, timestamp e ≤ t) True endtime.

(** *** Scenarios *)

Module Scenario.

Definition T0 : iso_time := IsoTime "2018-05-01T00:00:00Z" 1525132800000.
Definition T1 : iso_time := IsoTime "2018-05-02T00:00:00Z" 1525219200000.

(** A fresh bucket ["b"]. *)
Definition fresh : db := (create_bucket "b" "test" "c" "h" T0 None []).2.

Definition A : Event := mkEvent (Some 7) 1000 5000000 {[ "label" := VStr "test1" ]}.
Definition A' : Event := mkEvent None 1000 5000000 {[ "label" := VStr "test1" ]}.
Definition B : Event := mkEvent (Some 8) 2000 1000000 {[ "label" := VStr "test2" ]}.

Definition with_A : db := (insert_one "b" A fresh).2.
Definition with_A' : db := (insert_one "b" A' fresh).2.
Definition with_A_B : db := (insert_one "b" B with_A).2.

(** The bucket created a second time, a day later. *)
Definition created_twice : db := (create_bucket "b" "test" "c" "h" T1 None fresh).2.

Definition count_between (starttime endtime : option datetime) (d : db)
  : result nat :=
  match (get_events "b" (-1) starttime endtime d).1 with
  | Ok events => Ok (length events)
  | Raise e => Raise e
  end.

Definition count (d : db) : result nat := count_between None None d.

Definition latest (d : db) : result (option Event) :=
  match (get_events "b" (-1) None None d).1 with
  | Ok events => Ok (head events)
  | Raise e => Raise e
  end.

(** A record of an event with id field 7, and one of a sentinel. *)
Definition two_records : list row :=
  [Row 1000 {[ "duration" := VFloat (Qmake 5 1); "id" := VInt 7 ]};
   Row 0 {[ "duration" := VFloat (Qmake 0 1); "id" := VNone ]}].

(** An event of the application [vim], earlier than [A]. *)
Definition early : Event :=
  mkEvent (Some 9) 500 2000000 {[ "app" := VStr "vim"; "title" := VStr "notes" ]}.

(** A database in which an event was inserted into a bucket that was
    never created. *)
Definition orphan : db := (insert_one "lost" A fresh).2.

(** [A] and the sentinel as [get_events] returns them. *)
Definition A_read : Event :=
  mkEvent (Some 1000) 1000 5000000 {[ "label" := VStr "test1"; "id" := VInt 7 ]}.

Definition clash : Event := mkEvent None 1000 1000000 {[ "duration" := VInt 5 ]}.
Definition hidden : Event := mkEvent None 1000 1000000 {[ "_x" := VInt 1 ]}.

(** An event that lasts [2 ^ 33] seconds and a microsecond. *)
Definition long : Event :=
  mkEvent None 1000 8589934592000001 {[ "label" := VStr "test1" ]}.

End Scenario.

(** A decidable statement about concrete data is settled by evaluation. *)
Ltac by_computation := apply (bool_decide_unpack _); vm_compute; exact I.

(** * Properties *)

Example underscore_is_the_character : first_char "_id" = Ok underscore.
Proof. reflexivity. Qed.

(** ** Order of the stored points *)

#[local] Instance earlier_total : Total earlier.
Proof. intros p q. unfold earlier. lia. Qed.
#[local] Instance earlier_trans : Transitive earlier.
Proof. intros p q r. unfold earlier. lia. Qed.
#[local] Instance later_total : Total later.
Proof. intros p q. unfold later. lia. Qed.
#[local] Instance later_trans : Transitive later.
Proof. intros p q r. unfold later. lia. Qed.

Section order.
Context {A : Type} (R : relation A).

Lemma StronglySorted_take_prefix (n : nat) (l : list A) :
  StronglySorted R l → StronglySorted R (take n l).
Proof.
  intros Hl. revert n. induction Hl as [|x l Hl IH Hx]; intros [|n]; simpl;
    try constructor; auto.
  eapply Forall_forall. intros y Hy. eapply Forall_forall in Hx; [exact Hx|].
  by eapply subseteq_take.
Qed.

Lemma StronglySorted_last_greatest `{!Reflexive R} (l : list A) (z : A) :
  StronglySorted R l → last l = Some z → ∀ x, x ∈ l → R x z.
Proof.
  intros Hl Hz x Hx. apply last_Some in Hz as [l' ->].
  apply elem_of_app in Hx as [Hx|Hx].
  - apply StronglySorted_app in Hl as (Hd & _ & _). apply Hd; [done|]. set_solver.
  - apply list_elem_of_singleton in Hx as ->. reflexivity.
Qed.

Lemma StronglySorted_head_least (x : A) (l : list A) :
  StronglySorted R (x :: l) → ∀ y, y ∈ l → R x y.
Proof.
  intros Hl y Hy. apply StronglySorted_cons in Hl as [Hx _].
  by eapply Forall_forall in Hx.
Qed.

Lemma StronglySorted_Forall2 {B} (R' : relation B) (Q : A → B → Prop) l l' :
  (∀ x y x' y', R x y → Q x x' → Q y y' → R' x' y') →
  StronglySorted R l → Forall2 Q l l' → StronglySorted R' l'.
Proof.
  intros HQ Hl. revert l'. induction Hl as [|x l Hl IH Hx]; intros l' H2.
  - inv H2. constructor.
  - inv H2. constructor; [by apply IH|].
    match goal with H : Forall2 Q l _ |- _ => rename H into Hrest end.
    clear IH Hl. induction Hrest; constructor.
    + inv Hx. eapply HQ; eauto.
    + inv Hx. auto.
Qed.
End order.

#[local] Instance earlier_refl : Reflexive earlier.
Proof. intros p. unfold earlier. lia. Qed.

(** ** The decoder *)

Lemma copy_field_kept key v acc :
  key ≠ "" →
  copy_field key v (Ok acc)
  = Ok (if decide (kept (key, v)) then <[key := v]> acc else acc).
Proof.
  intros Hkey. destruct key as [|c key]; [done|].
  unfold copy_field, rbind, first_char.
  destruct (decide (kept (String c key, v))) as [(Hin & Hu & Hv)|Hno]; simpl in *.
  - apply bool_decide_eq_false in Hu.
    rewrite bool_decide_true, bool_decide_true, Hv; done.
  - case_bool_decide as Hin; [|done].
    case_bool_decide as Hu; [|done].
    destruct (truthy v) eqn:Hv; [|done].
    destruct Hno. split_and!; simpl; [done| |done]. by apply bool_decide_eq_false.
Qed.

Lemma copy_fields_filter (m : dict) :
  m !! "" = None → map_fold copy_field (Ok ∅) m = Ok (filter kept m).
Proof.
  apply (map_fold_weak_ind (λ r m, m !! "" = None → r = Ok (filter kept m))).
  - intros _. by rewrite map_filter_empty.
  - intros key v m' r Hfresh IH Hnone.
    apply lookup_insert_None in Hnone as [Hnone Hkey].
    rewrite (IH Hnone), copy_field_kept by done.
    case_decide as Hk.
    + by rewrite map_filter_insert_True.
    + rewrite map_filter_insert_not'; [done|done|]. intros y Hy. congruence.
Qed.

Lemma timestamp_of_epoch (t : Z) :
  datetime_add epoch_origin (timedelta_of_milliseconds t) = t.
Proof.
  unfold datetime_add, epoch_origin, timedelta_of_milliseconds.
  rewrite Z.div_mul by lia. lia.
Qed.

Lemma parse_event_ok (r : row) : row_ok r → ∃ e, parse_event r = Ok e ∧ decoded r e.
Proof.
  intros [Hdur Hnone]. unfold parse_event, getitem, as_dict, Event_new.
  rewrite lookup_insert_ne by done.
  destruct (columns r !! "duration") as [v|] eqn:Hv; [|done]. simpl in Hdur.
  apply bool_decide_eq_true in Hdur as [q Hq]. simpl. rewrite Hq. simpl.
  rewrite copy_fields_filter by (by rewrite lookup_insert_ne). simpl.
  eexists; split; [reflexivity|]. unfold decoded. simpl.
  rewrite Hv. simpl. rewrite Hq. split_and!; try done. apply timestamp_of_epoch.
Qed.

Lemma event_parser_from_ok (rows : list row) :
  Forall row_ok rows →
  ∃ events, _event_parser_from rows = Ok events ∧ Forall2 decoded rows events.
Proof.
  induction 1 as [|r rows Hr _ (events & IH & H2)]; simpl.
  - by exists [].
  - destruct (parse_event_ok r Hr) as (e & -> & He). simpl. rewrite IH. simpl.
    exists (e :: events). split; [done|]. by constructor.
Qed.

Lemma copy_fields_inv (m : dict) (mapped_data : dict) :
  map_fold copy_field (Ok ∅) m = Ok mapped_data → m !! "" = None.
Proof.
  revert mapped_data.
  apply (map_fold_weak_ind (λ r m, ∀ acc, r = Ok acc → m !! "" = None)).
  - intros _ _. apply lookup_empty.
  - intros key v m' r _ IH acc Hacc. destruct r as [acc'|]; [|done].
    apply lookup_insert_None. split; [by eapply IH|].
    intros ->. done.
Qed.

Lemma parse_event_inv (r : row) (e : Event) : parse_event r = Ok e → row_ok r.
Proof.
  unfold parse_event, getitem, as_dict, Event_new, row_ok.
  rewrite lookup_insert_ne by done.
  destruct (columns r !! "duration") as [v|]; [|done]. simpl.
  destruct (seconds_of v) as [q|] eqn:Hq; [|done]. simpl.
  destruct (map_fold copy_field _ _) as [mapped_data|] eqn:Hfold; [|done].
  intros _. apply copy_fields_inv in Hfold.
  apply lookup_insert_None in Hfold as [Hnone _]. split; [|done].
  unfold is_number. rewrite Hq. by apply bool_decide_eq_true.
Qed.

Lemma event_parser_from_inv (rows : list row) (events : list Event) :
  _event_parser_from rows = Ok events → Forall row_ok rows.
Proof.
  revert events. induction rows as [|r rows IH]; intros events; simpl; [constructor|].
  destruct (parse_event r) as [e|] eqn:He; [|done]. simpl.
  destruct (_event_parser_from rows) as [events'|]; [|done]. intros _.
  constructor; [by eapply parse_event_inv | by eapply IH].
Qed.

Lemma event_parser_from_decoded (rows : list row) (events : list Event) :
  _event_parser_from rows = Ok events → Forall2 decoded rows events.
Proof.
  intros Hev. destruct (event_parser_from_ok rows (event_parser_from_inv _ _ Hev))
    as (events' & Hev' & H2). congruence.
Qed.

(** ** Reading events *)

Lemma get_events_query bucket_id limit starttime endtime d :
  get_events bucket_id limit starttime endtime d
  = (_event_parser_from
       (query (Select Star bucket_id (time_bounds starttime endtime) true
                 (limit_clause limit)) d), d).
Proof.
  unfold get_events, bind, db_query, lift, limit_clause, time_bounds, add_where.
  assert (Hl : negb (limit =? 0) && (-1 <? limit) = bool_decide (0 < limit)).
  { case_bool_decide; [apply andb_true_iff; split; [apply negb_true_iff|]; lia|].
    apply andb_false_iff. destruct (Z.eq_dec limit 0) as [->|]; [by left|right]. lia. }
  rewrite Hl. destruct starttime, endtime; simpl;
    rewrite ?bool_decide_true, ?bool_decide_false by (by inversion 1 || eauto); simpl;
    case_bool_decide; case_decide; try lia; reflexivity.
Qed.

Lemma matching_in_series m cs d p : p ∈ matching m cs d → p ∈ series m d.
Proof.
  unfold matching, series. rewrite !list_elem_of_filter. naive_solver.
Qed.

Lemma matching_unconditional m d : matching m [] d = series m d.
Proof. unfold matching, series. apply list_filter_iff. naive_solver. Qed.

Lemma ordered_Permutation desc ps : ordered desc ps ≡ₚ ps.
Proof. destruct desc; apply merge_sort_Permutation. Qed.

Lemma column_names_spec ps k :
  k ∈ column_names ps ↔ ∃ p, p ∈ ps ∧ (is_Some (fields p !! k) ∨ is_Some (tags p !! k)).
Proof.
  induction ps as [|p ps IH]; simpl.
  - set_solver.
  - rewrite !elem_of_union, !elem_of_dom, IH. setoid_rewrite elem_of_cons. naive_solver.
Qed.

Lemma row_of_ok cols p : point_ok p → "" ∉ cols → row_ok (row_of cols p).
Proof.
  intros (Hdur & Hf & Ht) Hcols. split; simpl.
  - destruct (fields p !! "duration") as [v|] eqn:Hv; [|done].
    by erewrite lookup_union_Some_l; [|erewrite lookup_union_Some_l].
  - rewrite !lookup_union_None, lookup_gset_to_gmap_None. done.
Qed.

Lemma select_star_rows_ok m cs desc lim d :
  bucket_ok m d → Forall row_ok (query (Select Star m cs desc lim) d).
Proof.
  intros Hok. unfold query. simpl.
  set (ps := ordered desc (matching m cs d)).
  assert (Hps : Forall point_ok ps).
  { apply Forall_forall. intros p Hp. unfold ps in Hp.
    rewrite ordered_Permutation in Hp. apply matching_in_series in Hp.
    unfold bucket_ok in Hok. by eapply Forall_forall in Hok. }
  assert (Hrows : Forall row_ok (row_of (column_names ps) <$> ps)).
  { apply Forall_fmap. eapply Forall_impl; [exact Hps|]. intros p Hp. simpl.
    apply row_of_ok; [done|]. rewrite column_names_spec. intros (q & Hq & Hsome).
    eapply Forall_forall in Hps; [|exact Hq]. destruct Hps as (_ & Hf & Ht).
    rewrite Hf, Ht in Hsome. destruct Hsome as [[? ?]|[? ?]]; done. }
  destruct lim; simpl; [|done]. by apply Forall_take.
Qed.

Lemma get_events_ok bucket_id limit starttime endtime d :
  bucket_ok bucket_id d →
  ∃ events,
    get_events bucket_id limit starttime endtime d = (Ok events, d)
    ∧ Forall2 decoded
        (query (Select Star bucket_id (time_bounds starttime endtime) true
                  (limit_clause limit)) d) events.
Proof.
  intros Hok. rewrite get_events_query.
  destruct (event_parser_from_ok _ (select_star_rows_ok bucket_id
              (time_bounds starttime endtime) true (limit_clause limit) d Hok))
    as (events & -> & H2).
  by exists events.
Qed.

Lemma get_events_decoded bucket_id limit starttime endtime d events :
  (get_events bucket_id limit starttime endtime d).1 = Ok events →
  Forall2 decoded
    (query (Select Star bucket_id (time_bounds starttime endtime) true
              (limit_clause limit)) d) events.
Proof. rewrite get_events_query. apply event_parser_from_decoded. Qed.

Lemma get_events_returns bucket_id limit starttime endtime d :
  bucket_ok bucket_id d →
  ∃ events, get_events bucket_id limit starttime endtime d = (Ok events, d).
Proof.
  intros Hok.
  destruct (get_events_ok bucket_id limit starttime endtime d Hok) as (events & Hev & _).
  by exists events.
Qed.

(** C2 (amended): for a bucket of [N] records, [get_events] with a limit
    [K >= 1] returns exactly [min N K] events, and with a limit of [-1],
    of [0], or any other limit below 1, all [N] of them.  The call
    returns whenever every record of the bucket can be decoded. *)
Theorem get_events_limit (bucket_id : string) (K : Z) (d : db) :
  (bucket_ok bucket_id d →
     ∃ events, get_events bucket_id K None None d = (Ok events, d))
  ∧ ∀ events,
      (get_events bucket_id K None None d).1 = Ok events →
      (1 ≤ K → Z.of_nat (length events)
                = Z.min (Z.of_nat (length (series bucket_id d))) K)
      ∧ (K ≤ 0 → length events = length (series bucket_id d)).
Proof.
  split; [apply get_events_returns|]. intros events Hev.
  apply get_events_decoded, Forall2_length in Hev. rewrite <- Hev.
  unfold query, time_bounds, limit_clause. simpl. rewrite matching_unconditional.
  assert (Hlen : length (merge_sort later (series bucket_id d))
                 = length (series bucket_id d))
    by (by rewrite merge_sort_Permutation).
  split; intros HK; case_decide; try lia; simpl.
  - rewrite length_take, length_fmap, Hlen. lia.
  - by rewrite length_fmap.
Qed.

(** C8: for every limit and all time bounds, the events that [get_events]
    returns are in non-increasing order of timestamp, the most recent
    first.  The call returns whenever every record of the bucket can be
    decoded. *)
Theorem get_events_newest_first (bucket_id : string) (limit : Z)
    (starttime endtime : option datetime) (d : db) :
  (bucket_ok bucket_id d →
     ∃ events, get_events bucket_id limit starttime endtime d = (Ok events, d))
  ∧ ∀ events,
      (get_events bucket_id limit starttime endtime d).1 = Ok events →
      StronglySorted newest_first events.
Proof.
  split; [apply get_events_returns|]. intros events Hev.
  apply get_events_decoded in Hev.
  eapply (StronglySorted_Forall2 (λ r1 r2, row_time r2 ≤ row_time r1)); [| |exact Hev].
  - intros r1 r2 e1 e2 Hr (_ & H1 & _) (_ & H2 & _). unfold newest_first. lia.
  - unfold query. simpl.
    set (ps := merge_sort later (matching _ _ _)).
    assert (Hs : StronglySorted (λ r1 r2, row_time r2 ≤ row_time r1)
                   (row_of (column_names ps) <$> ps)).
    { apply StronglySorted_fmap with (R1 := later);
        [|apply StronglySorted_merge_sort; apply _].
      intros p q Hpq. exact Hpq. }
    destruct (limit_clause limit); simpl; [|done]. by apply StronglySorted_take_prefix.
Qed.

(** ** The last event id *)

Lemma matching_spec m cs d p :
  p ∈ matching m cs d
  ↔ p ∈ d ∧ measurement p = m ∧ Forall (λ c, holds c p = true) cs.
Proof.
  unfold matching. rewrite list_elem_of_filter, forallb_forall, Forall_forall.
  setoid_rewrite <- list_elem_of_In. naive_solver.
Qed.

(** C7: in a bucket with at least one record whose [id] field is not
    null, [_get_last_event_id] returns the time key of the latest such
    record, whatever the [id] field holds. *)
Theorem get_last_event_id_is_time_key (bucket_id : string) (d : db) :
  (∃ p, p ∈ series bucket_id d ∧ has_field "id" p) →
  ∃ q, q ∈ series bucket_id d
       ∧ has_field "id" q
       ∧ (∀ r, r ∈ series bucket_id d → has_field "id" r → time r ≤ time q)
       ∧ _get_last_event_id bucket_id d = (Ok (Some (time q)), d).
Proof.
  intros (p & Hp & Hid).
  unfold _get_last_event_id, bind, db_query, ret, query. simpl.
  rewrite matching_unconditional.
  set (l := merge_sort earlier (filter (has_field "id") (series bucket_id d))).
  assert (Hperm : l ≡ₚ filter (has_field "id") (series bucket_id d))
    by apply merge_sort_Permutation.
  assert (Hsorted : StronglySorted earlier l)
    by (apply StronglySorted_merge_sort; apply _).
  destruct (last l) as [q|] eqn:Hlast.
  - exists q. pose proof (last_Some_elem_of _ _ Hlast) as Hq.
    rewrite Hperm, list_elem_of_filter in Hq. destruct Hq as [Hqid Hq].
    split_and!; try done. intros r Hr Hrid.
    apply (StronglySorted_last_greatest earlier l q Hsorted Hlast).
    rewrite Hperm, list_elem_of_filter. done.
  - apply last_None in Hlast.
    assert (Hin : p ∈ l) by (rewrite Hperm, list_elem_of_filter; done).
    rewrite Hlast in Hin. by apply elem_of_nil in Hin.
Qed.

Example last_event_id_of_A :
  field_of "id" (normalise (_event_parser_to "b" Scenario.A)) = Some (VInt 7)
  ∧ _get_last_event_id "b" Scenario.with_A = (Ok (Some 1000), Scenario.with_A).
Proof. split; vm_compute; reflexivity. Qed.

(** ** Bucket metadata *)

Lemma metadata_matching bucket_id d p :
  p ∈ matching "metadata" [TagEq "id" bucket_id] d ↔ p ∈ d ∧ is_metadata_of bucket_id p.
Proof.
  rewrite matching_spec, Forall_singleton. unfold is_metadata_of. simpl.
  rewrite bool_decide_eq_true. naive_solver.
Qed.

(** C6 (amended): [get_metadata] raises [StopIteration] when no metadata
    record carries the bucket id, and otherwise returns the earliest
    record that does, also when several match. *)
Theorem get_metadata_first_or_StopIteration (bucket_id : string) (d : db) :
  ((∀ p, p ∈ d → ¬ is_metadata_of bucket_id p) →
     get_metadata bucket_id d = (Raise StopIteration, d))
  ∧ ((∃ p, p ∈ d ∧ is_metadata_of bucket_id p) →
     ∃ p metadata,
       get_metadata bucket_id d = (Ok metadata, d)
       ∧ p ∈ d ∧ is_metadata_of bucket_id p
       ∧ (∀ q, q ∈ d → is_metadata_of bucket_id q → time p ≤ time q)
       ∧ metadata !! "time" = Some (VInt (time p))
       ∧ (∀ k v, k ≠ "time" → fields p !! k = Some v → metadata !! k = Some v)).
Proof.
  unfold get_metadata, bind, db_query, ret, raise, query. simpl.
  set (found := matching "metadata" [TagEq "id" bucket_id] d).
  set (l := merge_sort earlier found).
  assert (Hperm : l ≡ₚ found) by apply merge_sort_Permutation.
  assert (Hsorted : StronglySorted earlier l)
    by (apply StronglySorted_merge_sort; apply _).
  split.
  - intros Hnone. destruct l as [|p l'] eqn:Hl; [done|].
    assert (Hp : p ∈ found) by (rewrite <- Hperm; left).
    apply metadata_matching in Hp as [Hp Hm]. by destruct (Hnone p Hp).
  - intros (p0 & Hp0 & Hm0).
    assert (Hin : p0 ∈ l) by (rewrite Hperm; apply metadata_matching; done).
    destruct l as [|p l'] eqn:Hl; [by apply elem_of_nil in Hin|]. simpl.
    assert (Hp : p ∈ found) by (rewrite <- Hperm; left).
    apply metadata_matching in Hp as [Hp Hm].
    eexists p, _. split; [reflexivity|]. split_and!; try done.
    + intros q Hq Hmq.
      assert (Hql : q ∈ p :: l') by (rewrite Hperm; apply metadata_matching; done).
      apply elem_of_cons in Hql as [->|Hql]; [lia|].
      by apply (StronglySorted_head_least earlier p l' Hsorted).
    + unfold as_dict. by rewrite lookup_insert_eq.
    + intros k v Hk Hv. unfold as_dict. rewrite lookup_insert_ne by done. simpl.
      by erewrite lookup_union_Some_l; [|erewrite lookup_union_Some_l].
Qed.

(** ** Decoding *)

(** C9: every record that [_event_parser_from] decodes yields an event
    whose id is the record's time key; the record's [id] field is copied
    into the event's data when it is truthy, and left out otherwise.
    Decoding succeeds on records with a numeric duration and no empty
    column name. *)
Theorem event_parser_from_id_is_time_key (rows : list row) :
  (Forall row_ok rows → ∃ events, _event_parser_from rows = Ok events)
  ∧ ∀ events,
      _event_parser_from rows = Ok events →
      Forall2 (λ r e,
        id e = Some (row_time r)
        ∧ (∀ v, columns r !! "id" = Some v → truthy v = true →
                data e !! "id" = Some v)
        ∧ (∀ v, columns r !! "id" = Some v → truthy v = false →
                data e !! "id" = None)) rows events.
Proof.
  split.
  { intros Hrows. destruct (event_parser_from_ok rows Hrows) as (events & Hev & _).
    by exists events. }
  intros events Hev. apply event_parser_from_decoded in Hev.
  eapply Forall2_impl; [exact Hev|].
  intros r e (Hid & _ & _ & Hdata). split; [done|]. rewrite Hdata.
  split; intros v Hv Ht.
  - apply map_lookup_filter_Some. split.
    + unfold as_dict. by rewrite lookup_insert_ne.
    + split_and!; simpl; [|done|done]. set_solver.
  - apply map_lookup_filter_None. right. intros v' Hv' (_ & _ & Ht'). simpl in Ht'.
    unfold as_dict in Hv'. rewrite lookup_insert_ne in Hv' by done. congruence.
Qed.

(** ** Encoding, and the round trip *)

(** Rounding to an integer moves a number by at most one half. *)
Lemma round_half_even_error (n : Z) (d : positive) :
  2 * Z.abs (round_half_even (Qmake n d) * Zpos d - n) ≤ Zpos d.
Proof.
  unfold round_half_even. simpl.
  pose proof (Z.div_mod (2 * n + Zpos d) (2 * Zpos d) ltac:(lia)) as Hdm.
  pose proof (Z.mod_pos_bound (2 * n + Zpos d) (2 * Zpos d) ltac:(lia)) as Hb.
  destruct ((_ mod _ =? 0) && _) eqn:Htie.
  - apply andb_true_iff in Htie as [Hz _]. apply Z.eqb_eq in Hz. nia.
  - nia.
Qed.

(** A number less than one half away from an integer rounds to it. *)
Lemma round_half_even_unique (n : Z) (d : positive) (z : Z) :
  2 * Z.abs (n - z * Zpos d) < Zpos d → round_half_even (Qmake n d) = z.
Proof.
  intros Hz. unfold round_half_even. simpl.
  assert (Hfl : (2 * n + Zpos d) / (2 * Zpos d) = z).
  { symmetry. apply (Z.div_unique_pos _ _ z (2 * n + Zpos d - 2 * Zpos d * z)); lia. }
  assert (Hmod : (2 * n + Zpos d) mod (2 * Zpos d) ≠ 0).
  { rewrite Z.mod_eq by lia. rewrite Hfl. lia. }
  rewrite Hfl. apply Z.eqb_neq in Hmod. by rewrite Hmod.
Qed.

Lemma ilog2_lower (n : Z) (d : positive) :
  Z.log2 n - Z.log2 (Zpos d) - 1 ≤ ilog2 n d.
Proof. unfold ilog2. destruct (0 <=? _); destruct (_ <=? _); lia. Qed.

Lemma ilog2_upper (n : Z) (d : positive) (b : Z) :
  0 < n → 0 ≤ b → n < 2 ^ b * Zpos d → ilog2 n d < b.
Proof.
  intros Hn Hb Hlt. unfold ilog2.
  set (k0 := Z.log2 n - Z.log2 (Zpos d)).
  destruct (0 <=? k0) eqn:Hk0.
  - apply Z.leb_le in Hk0. destruct (2 ^ k0 * Zpos d <=? n) eqn:Htest.
    + apply Z.leb_le in Htest.
      destruct (Z.lt_ge_cases k0 b) as [?|Hge]; [done|].
      pose proof (Z.pow_le_mono_r 2 b k0 ltac:(lia) Hge). nia.
    + assert (Hlog : Z.log2 n < b + Z.log2 (Zpos d) + 1).
      { apply Z.log2_lt_pow2; [done|].
        pose proof (Z.log2_spec (Zpos d) ltac:(lia)) as [_ Hd].
        pose proof (Z.log2_nonneg (Zpos d)) as Hnn.
        rewrite Z.pow_add_r, Z.pow_add_r by lia.
        replace (Z.succ (Z.log2 (Zpos d))) with (Z.log2 (Zpos d) + 1) in Hd by lia.
        rewrite Z.pow_add_r in Hd by lia.
        assert (0 < 2 ^ b) by (apply Z.pow_pos_nonneg; lia).
        nia. }
      unfold k0. lia.
  - apply Z.leb_gt in Hk0. destruct (_ <=? _); lia.
Qed.

Lemma round_double_pos (n : Z) (d : positive) :
  0 < n → round_double (Qmake n d) = round_pos n d.
Proof. intros Hn. unfold round_double. cbn [Qnum Qden]. by destruct n. Qed.

(** Below [2 ^ 33] seconds the double nearest to a time span is less than
    half a microsecond away from it, and [timedelta] finds the span again.
    [8589934592000000] is [2 ^ 33] seconds in microseconds. *)
Lemma timedelta_seconds_round_trip (d : timedelta) :
  0 ≤ d < 8589934592000000 → timedelta_of_seconds (total_seconds d) = d.
Proof.
  intros [Hd0 Hd].
  destruct (decide (d = 0)) as [->|Hnz]; [reflexivity|].
  assert (Hpos : 0 < d) by lia.
  unfold total_seconds. rewrite round_double_pos by done. unfold round_pos.
  pose proof (ilog2_upper d 1000000 33 Hpos ltac:(lia) ltac:(lia)) as Hup.
  pose proof (ilog2_lower d 1000000) as Hlo.
  pose proof (Z.log2_nonneg d) as Hlog.
  change (Z.log2 (Zpos 1000000)) with 19 in Hlo.
  set (k := ilog2 d 1000000) in *.
  rewrite Z.max_l by lia.
  destruct (0 <=? k - 52) eqn:He; [apply Z.leb_le in He; lia|]. clear He.
  set (E := - (k - 52)).
  assert (HE : 20 ≤ E) by (unfold E; lia).
  assert (HP : 1048576 ≤ 2 ^ E).
  { change 1048576 with (2 ^ 20). apply Z.pow_le_mono_r; lia. }
  set (P := 2 ^ E) in *.
  pose proof (round_half_even_error (d * P) 1000000) as Hm.
  set (m := round_half_even (d * P # 1000000)) in *.
  pose proof (Z.div_mod d 1000000 ltac:(lia)) as Hdm.
  pose proof (Z.mod_pos_bound d 1000000 ltac:(lia)) as Hf.
  set (s := d / 1000000) in *. set (f := d mod 1000000) in *.
  assert (Hs : 0 ≤ s) by (apply Z.div_pos; lia).
  assert (Hr : 2 * Z.abs ((m - s * P) * 1000000 - f * P) ≤ 1000000).
  { replace ((m - s * P) * 1000000 - f * P) with (m * 1000000 - d * P)
      by (rewrite Hdm; ring).
    exact Hm. }
  assert (Hwhole : s * P ≤ m < (s + 1) * P) by nia.
  unfold timedelta_of_seconds. cbn [Qnum Qden].
  rewrite Z2Pos.id by lia.
  assert (Hquot : m ÷ P = s).
  { rewrite Z.quot_div_nonneg by nia. symmetry.
    apply (Z.div_unique_pos _ _ s (m - P * s)); nia. }
  rewrite Hquot.
  set (r := m - s * P) in *.
  assert (Hr0 : 0 ≤ r < P) by (unfold r; lia).
  destruct (decide (r = 0)) as [Hz|Hrnz].
  { rewrite Hz in Hr |- *. change (0 * 1000000) with 0.
    unfold round_double. cbn [Qnum]. change (round_half_even 0%Q) with 0.
    assert (f = 0); [|lia].
    destruct (decide (f = 0)) as [|Hfnz]; [done|].
    assert (P ≤ f * P) by nia. lia. }
  rewrite round_double_pos by lia. unfold round_pos.
  assert (Hup' : ilog2 (r * 1000000) (Z.to_pos P) < 20).
  { apply ilog2_upper; [lia|lia|]. rewrite Z2Pos.id by lia.
    change (2 ^ 20) with 1048576. nia. }
  set (k' := ilog2 (r * 1000000) (Z.to_pos P)) in *.
  set (e' := Z.max (k' - 52) (-1074)).
  assert (He' : e' ≤ -33) by (unfold e'; lia).
  destruct (0 <=? e') eqn:Hle; [apply Z.leb_le in Hle; lia|]. clear Hle.
  assert (HP' : 8589934592 ≤ 2 ^ (- e')).
  { change 8589934592 with (2 ^ 33). apply Z.pow_le_mono_r; lia. }
  set (P' := 2 ^ (- e')) in *.
  pose proof (round_half_even_error (r * 1000000 * P') (Z.to_pos P)) as Hm'.
  rewrite Z2Pos.id in Hm' by lia.
  set (m' := round_half_even (r * 1000000 * P' # Z.to_pos P)) in *.
  rewrite (round_half_even_unique m' (Z.to_pos P') f); [lia|].
  rewrite Z2Pos.id by lia.
  assert (Hprod : 48576 * 8589934591 ≤ (P - 1000000) * (P' - 1)).
  { apply Z.mul_le_mono_nonneg; lia. }
  assert (Hkey : 2 * Z.abs (m' * P - f * P' * P) < P' * P).
  { replace (m' * P - f * P' * P)
      with ((m' * P - r * 1000000 * P') + (r * 1000000 - f * P) * P') by ring.
    assert (Z.abs ((r * 1000000 - f * P) * P') ≤ 500000 * P').
    { rewrite Z.abs_mul, (Z.abs_eq P') by lia. apply Z.mul_le_mono_nonneg_r; lia. }
    pose proof (Z.abs_triangle (m' * P - r * 1000000 * P') ((r * 1000000 - f * P) * P')).
    assert ((P - 1000000) * (P' - 1) = P' * P - P - 1000000 * P' + 1000000) by ring.
    lia. }
  replace (m' * P - f * P' * P) with ((m' - f * P') * P) in Hkey by ring.
  rewrite Z.abs_mul, (Z.abs_eq P) in Hkey by lia.
  apply (Z.mul_lt_mono_pos_r P); lia.
Qed.

(** From [2 ^ 33] seconds on, doubles are more than a microsecond apart. *)
Example large_duration_loses_microsecond :
  timedelta_of_seconds (total_seconds 8589934592000001) = 8589934592000002.
Proof. vm_compute. reflexivity. Qed.

Lemma event_parser_to_spec (bucket_id : string) (event : Event) :
  let p := _event_parser_to bucket_id event in
  measurement p = bucket_id
  ∧ time p = timestamp event
  ∧ fields p = data event
               ∪ <["duration" := VFloat (total_seconds (duration event))]>
                   {[ "id" := id_value (id event) ]}
  ∧ (∀ k, is_Some (tags p !! k) → starts_with_underscore k = true).
Proof.
  unfold _event_parser_to. simpl.
  set (f0 := <["duration" := _]> _).
  apply (map_fold_weak_ind (λ r m,
    measurement r = bucket_id ∧ time r = timestamp event
    ∧ fields r = m ∪ f0
    ∧ (∀ k, is_Some (tags r !! k) → starts_with_underscore k = true))).
  - split_and!; simpl; try done.
    intros k [? Hk]. by rewrite lookup_empty in Hk.
  - intros key v m r _ (Hm & Ht & Hf & Htags). unfold add_attribute.
    case_bool_decide; simpl; (split_and!; [done|done| |]).
    + by rewrite Hf, insert_union_l.
    + intros k [x Hk]. apply lookup_insert_Some in Hk as [[<- _]|[_ Hk]]; [done|].
      apply Htags. eauto.
    + by rewrite Hf, insert_union_l.
    + done.
Qed.

Lemma round_trip_rows (bucket_id : string) (event : Event) :
  let p := normalise (_event_parser_to bucket_id event) in
  query (Select Star bucket_id (time_bounds None None) true (limit_clause (-1))) [p]
  = [row_of (column_names [p]) p].
Proof.
  destruct (event_parser_to_spec bucket_id event) as (Hm & _).
  intros p. unfold query, time_bounds.
  cbn [what from where_ descending InfluxDBClient.limit from_option app].
  rewrite matching_unconditional. unfold series.
  rewrite filter_cons_True by done. reflexivity.
Qed.

(** C5 (amended): for every event with a non-empty attribute bag, a
    positive duration below [2 ^ 33] seconds and no attribute called
    [duration], encoding it, storing it and decoding what is read back
    yields one event with exactly the same duration, in which every
    attribute with a truthy value is reproduced provided its name is not
    empty, is neither [time] nor [duration] and does not begin with an
    underscore.  The duration travels as a float: from [2 ^ 33] seconds
    on the float no longer tells microseconds apart. *)
Theorem round_trip_duration_and_attributes (bucket_id : string) (event : Event) :
  data event ≠ ∅ →
  0 < duration event < 8589934592000000 →
  data event !! "duration" = None →
  ∃ event',
    round_trip bucket_id event = Ok [event']
    ∧ duration event' = duration event
    ∧ (∀ k v, data event !! k = Some v → truthy v = true →
              k ≠ "" → k ∉ ["time"; "duration"] →
              starts_with_underscore k = false →
              data event' !! k = Some v).
Proof.
  intros _ Hbound Hnodur.
  destruct (event_parser_to_spec bucket_id event) as (Hm & Ht & Hf & Htags).
  set (p := normalise (_event_parser_to bucket_id event)).
  assert (Hdur : fields p !! "duration"
                 = Some (VFloat (total_seconds (duration event)))).
  { unfold p. simpl. apply map_lookup_filter_Some. split; [|done].
    rewrite Hf. rewrite lookup_union_r by done. done. }
  assert (Hok : bucket_ok bucket_id [p]).
  { unfold bucket_ok, series. rewrite filter_cons_True by done.
    constructor; [|constructor]. split_and!.
    - by rewrite Hdur.
    - apply map_lookup_filter_None. right. intros v _ [? _]. done.
    - apply map_lookup_filter_None. right. intros v _ [[? _] _]. done. }
  destruct (get_events_ok bucket_id (-1) None None [p] Hok) as (events & Hev & H2).
  pose proof (round_trip_rows bucket_id event) as Hrows.
  cbv zeta in Hrows. fold p in Hrows. rewrite Hrows in H2.
  apply Forall2_cons_inv_l in H2 as (event' & rest & Hdec & Hrest & ->).
  apply Forall2_nil_inv_l in Hrest as ->.
  exists event'. unfold round_trip.
  change (write_points [_event_parser_to bucket_id event] []) with [p].
  rewrite Hev. split; [done|].
  destruct Hdec as (_ & _ & Hd & Hdata). cbn [columns row_of] in Hd.
  assert (Hcol : ∀ k v, fields p !! k = Some v →
            (fields p ∪ tags p ∪ gset_to_gmap VNone (column_names [p])) !! k = Some v).
  { intros k v Hk. by erewrite lookup_union_Some_l; [|erewrite lookup_union_Some_l]. }
  split.
  - rewrite (Hcol _ _ Hdur) in Hd. simpl in Hd.
    rewrite timedelta_seconds_round_trip in Hd by lia. congruence.
  - intros k v Hk Hv Hne Hin Hund. rewrite Hdata.
    apply map_lookup_filter_Some. split; [|done].
    unfold as_dict. rewrite lookup_insert_ne by set_solver. cbn [columns row_of].
    apply Hcol. unfold p. simpl. apply map_lookup_filter_Some. split.
    + rewrite Hf. by apply lookup_union_Some_l.
    + split; simpl; [done|]. intros ->. done.
Qed.

(** ** Deletion *)

(** C10: for every bucket id and event id, [delete] returns [None]: never
    a boolean, whether or not a record matched. *)
Theorem delete_returns_None (bucket_id : string) (event_id : Z) (d : db) :
  (delete bucket_id event_id d).1 = Ok VNone
  ∧ ∀ b : bool, (delete bucket_id event_id d).1 ≠ Ok (VBool b).
Proof. split; [reflexivity | intros b; discriminate]. Qed.

(** ** Bulk insertion *)

Lemma insert_many_loop_raises bucket_id event rest bulk :
  insert_many_loop bucket_id (event :: rest) bulk = Raise ValueError.
Proof. reflexivity. Qed.

(** C4 (as the code behaves): given at least one event, [insert_many]
    raises [ValueError] at the first of them and writes nothing; the claim
    that it writes all the encoded points fails. *)
Theorem insert_many_raises_ValueError (bucket_id : string) (event : Event)
    (rest : list Event) (d : db) :
  insert_many bucket_id (event :: rest) d = (Raise ValueError, d).
Proof. unfold insert_many, bind, lift. by rewrite insert_many_loop_raises. Qed.

(** ** Counting *)

Lemma get_eventcount_unbounded bucket_id starttime endtime d :
  get_eventcount bucket_id starttime endtime d = get_eventcount bucket_id None None d.
Proof. reflexivity. Qed.

(** C3 (as the code behaves): [get_eventcount] gives the same answer
    whatever the bounds; with events at 1000 and 2000 it counts 2 from
    1500 on, where [get_events] returns the one event in range. *)
Theorem get_eventcount_ignores_time_bounds :
  (∀ bucket_id starttime endtime d,
     get_eventcount bucket_id starttime endtime d
     = get_eventcount bucket_id None None d)
  ∧ (get_eventcount "b" (Some 1500) None Scenario.with_A_B).1 = Ok (VInt 2)
  ∧ Scenario.count_between (Some 1500) None Scenario.with_A_B = Ok 1%nat.
Proof.
  split; [intros; apply get_eventcount_unbounded |].
  split; vm_compute; reflexivity.
Qed.

(** ** Replacing the last event *)

(** C1 (as the code behaves): after [insert_one A] into a fresh bucket,
    [replace_last B] with a later timestamp adds a point: the bucket goes
    from 2 to 3 events, the count of ids from 1 to 2, and the latest
    event differs from the [B] that was returned.  The same growth from 2
    to 3 events is seen when [A] is inserted without an id. *)
Theorem replace_last_adds_a_point :
  let d := Scenario.with_A in
  let d' := (replace_last "b" Scenario.B d).2 in
  Scenario.count d = Ok 2%nat
  ∧ Scenario.count d' = Ok 3%nat
  ∧ (get_eventcount "b" None None d).1 = Ok (VInt 1)
  ∧ (get_eventcount "b" None None d').1 = Ok (VInt 2)
  ∧ (replace_last "b" Scenario.B d).1 = Ok (set_id (Some 2000) Scenario.B)
  ∧ Scenario.latest d'
    = Ok (Some (mkEvent (Some 2000) 2000 1000000
                  {[ "label" := VStr "test2"; "id" := VInt 1000 ]}))
  ∧ Scenario.count Scenario.with_A' = Ok 2%nat
  ∧ Scenario.count (replace_last "b" Scenario.B Scenario.with_A').2 = Ok 3%nat.
Proof. repeat split; vm_compute; reflexivity. Qed.

(** ** Instances and counterexamples *)

Lemma get_events_limit_witness :
  (∃ events, get_events "b" 1 None None Scenario.with_A = (Ok events, Scenario.with_A))
  ∧ ∀ events,
      (get_events "b" 1 None None Scenario.with_A).1 = Ok events →
      length events = 1%nat.
Proof.
  destruct (get_events_limit "b" 1 Scenario.with_A) as [Hret Hlen]. split.
  - apply Hret. by_computation.
  - intros events Hev. destruct (Hlen events Hev) as [Hmin _].
    specialize (Hmin ltac:(lia)).
    change (length (series "b" Scenario.with_A)) with 2%nat in Hmin. lia.
Defined.

(** The claim of C2 at [K = 0]: a bucket of two records answers a limit
    of zero with both of them, not with [min 2 0 = 0]. *)
Lemma get_events_limit_zero_returns_all :
  bucket_ok "b" Scenario.with_A
  ∧ length (series "b" Scenario.with_A) = 2%nat
  ∧ ∃ events,
      get_events "b" 0 None None Scenario.with_A = (Ok events, Scenario.with_A)
      ∧ length events = 2%nat
      ∧ Z.of_nat (length events)
        ≠ Z.min (Z.of_nat (length (series "b" Scenario.with_A))) 0.
Proof.
  assert (Hok : bucket_ok "b" Scenario.with_A)
    by (by_computation).
  split; [done|]. split; [vm_compute; reflexivity|].
  destruct (get_events_ok "b" 0 None None Scenario.with_A Hok) as (events & Hev & H2).
  exists events. split; [done|]. apply Forall2_length in H2.
  assert (Hlen : length events = 2%nat) by (rewrite <- H2; vm_compute; reflexivity).
  split; [done|]. rewrite Hlen. vm_compute. discriminate.
Qed.

Lemma get_events_newest_first_witness :
  (∃ events, get_events "b" 5 (Some 0) (Some 5000) Scenario.with_A_B
             = (Ok events, Scenario.with_A_B))
  ∧ ∀ events,
      (get_events "b" 5 (Some 0) (Some 5000) Scenario.with_A_B).1 = Ok events →
      StronglySorted newest_first events.
Proof.
  destruct (get_events_newest_first "b" 5 (Some 0) (Some 5000) Scenario.with_A_B)
    as [Hret Hsorted].
  split; [apply Hret; by_computation | exact Hsorted].
Defined.

Lemma get_last_event_id_is_time_key_witness :
  ∃ q, q ∈ series "b" Scenario.with_A
       ∧ has_field "id" q
       ∧ (∀ r, r ∈ series "b" Scenario.with_A → has_field "id" r → time r ≤ time q)
       ∧ _get_last_event_id "b" Scenario.with_A = (Ok (Some (time q)), Scenario.with_A).
Proof.
  apply (get_last_event_id_is_time_key "b" Scenario.with_A).
  exists (normalise (_event_parser_to "b" Scenario.A)). split.
  - by_computation.
  - by_computation.
Defined.

Lemma event_parser_from_id_is_time_key_witness :
  ∃ events,
    _event_parser_from Scenario.two_records = Ok events
    ∧ Forall2 (λ r e,
        id e = Some (row_time r)
        ∧ (∀ v, columns r !! "id" = Some v → truthy v = true →
                data e !! "id" = Some v)
        ∧ (∀ v, columns r !! "id" = Some v → truthy v = false →
                data e !! "id" = None)) Scenario.two_records events.
Proof.
  destruct (event_parser_from_id_is_time_key Scenario.two_records) as [Hret Hid].
  destruct Hret as [events Hev]; [by_computation|].
  exists events. split; [exact Hev | exact (Hid events Hev)].
Defined.

Lemma round_trip_duration_and_attributes_witness :
  ∃ event',
    round_trip "b" Scenario.A = Ok [event']
    ∧ duration event' = duration Scenario.A
    ∧ (∀ k v, data Scenario.A !! k = Some v → truthy v = true →
              k ≠ "" → k ∉ ["time"; "duration"] →
              starts_with_underscore k = false →
              data event' !! k = Some v).
Proof.
  apply (round_trip_duration_and_attributes "b" Scenario.A).
  - by_computation.
  - split; reflexivity.
  - vm_compute. reflexivity.
Defined.

(** The claim of C5 at three events with a non-empty attribute bag and a
    positive duration: an attribute called [duration] replaces the
    duration (five seconds come back for one), a truthy attribute whose
    name begins with an underscore does not come back, and a duration of
    [2 ^ 33] seconds and a microsecond comes back a microsecond longer. *)
Lemma round_trip_loses_duration_and_attribute :
  (data Scenario.clash ≠ ∅
   ∧ 0 < duration Scenario.clash
   ∧ ∃ event', round_trip "b" Scenario.clash = Ok [event']
               ∧ duration event' = 5000000
               ∧ duration event' ≠ duration Scenario.clash)
  ∧ (data Scenario.hidden ≠ ∅
     ∧ 0 < duration Scenario.hidden
     ∧ data Scenario.hidden !! "_x" = Some (VInt 1)
     ∧ truthy (VInt 1) = true
     ∧ ∃ event', round_trip "b" Scenario.hidden = Ok [event']
                 ∧ data event' !! "_x" = None)
  ∧ (data Scenario.long ≠ ∅
     ∧ 0 < duration Scenario.long
     ∧ ∃ event', round_trip "b" Scenario.long = Ok [event']
                 ∧ duration event' = 8589934592000002
                 ∧ duration event' ≠ duration Scenario.long).
Proof.
  split; [|split].
  - split; [by_computation|]. split; [reflexivity|].
    eexists. split; [vm_compute; reflexivity|]. split; [reflexivity|]. discriminate.
  - split; [by_computation|]. split; [reflexivity|].
    split; [vm_compute; reflexivity|]. split; [reflexivity|].
    eexists. split; [vm_compute; reflexivity|]. vm_compute. reflexivity.
  - split; [by_computation|]. split; [reflexivity|].
    eexists. split; [vm_compute; reflexivity|]. split; [reflexivity|]. discriminate.
Qed.

Lemma get_metadata_first_or_StopIteration_witness :
  get_metadata "b" [] = (Raise StopIteration, [])
  ∧ ∃ p metadata,
      get_metadata "b" Scenario.created_twice = (Ok metadata, Scenario.created_twice)
      ∧ p ∈ Scenario.created_twice ∧ is_metadata_of "b" p
      ∧ (∀ q, q ∈ Scenario.created_twice → is_metadata_of "b" q → time p ≤ time q)
      ∧ metadata !! "time" = Some (VInt (time p))
      ∧ (∀ k v, k ≠ "time" → fields p !! k = Some v → metadata !! k = Some v).
Proof.
  split.
  - apply (proj1 (get_metadata_first_or_StopIteration "b" [])).
    intros p Hp. by apply elem_of_nil in Hp.
  - apply (proj2 (get_metadata_first_or_StopIteration "b" Scenario.created_twice)).
    exists (Point "metadata" {[ "id" := VStr "b"; "_id" := VStr "metadata" ]}
              1525132800000
              {[ "type" := VStr "test"; "client" := VStr "c";
                 "hostname" := VStr "h";
                 "created" := VStr "2018-05-01T00:00:00Z" ]}).
    split; by_computation.
Defined.

(** The claim of C6 at a database without metadata and at a bucket
    created twice: the failure is [StopIteration], not [NotFoundError],
    and with two matching records the call succeeds with the one of the
    first creation instead of failing with [IntegrityError]. *)
Lemma get_metadata_neither_NotFound_nor_Integrity :
  (get_metadata "b" []).1 = Raise StopIteration
  ∧ (get_metadata "b" []).1 ≠ Raise NotFoundError
  ∧ length (filter (is_metadata_of "b") Scenario.created_twice) = 2%nat
  ∧ (∃ metadata,
       (get_metadata "b" Scenario.created_twice).1 = Ok metadata
       ∧ metadata !! "time" = Some (VInt 1525132800000))
  ∧ (get_metadata "b" Scenario.created_twice).1 ≠ Raise IntegrityError.
Proof.
  split; [reflexivity|]. split; [discriminate|]. split; [vm_compute; reflexivity|].
  split.
  - eexists. split; [vm_compute; reflexivity|]. vm_compute. reflexivity.
  - vm_compute. discriminate.
Qed.

(** * Further properties of the adapter *)

(** ** Writing a point *)

Lemma upsert_cases (p : point) (d : db) :
  (¬ stored_key p d ∧ upsert p d = d ++ [p])
  ∨ (∃ d1 q d2, d = d1 ++ q :: d2
       ∧ same_key p q = true
       ∧ Forall (λ x, same_key p x = false) d1
       ∧ upsert p d = d1 ++ merge_point p q :: d2).
Proof.
  induction d as [|x d IH]; simpl.
  - left. split; [|done]. unfold stored_key. intros H. by apply Exists_nil in H.
  - destruct (same_key p x) eqn:Hx.
    + right. exists [], x, d. by repeat split.
    + destruct IH as [[Hno ->]|(d1 & q & d2 & -> & Hq & Hd1 & ->)].
      * left. split; [|done]. unfold stored_key in *. rewrite Exists_cons.
        intros [?|?]; [congruence|done].
      * right. exists (x :: d1), q, d2. repeat split; try done. by constructor.
Qed.

Lemma upsert_length (p : point) (d : db) :
  length (upsert p d) = if decide (stored_key p d) then length d else S (length d).
Proof.
  destruct (upsert_cases p d) as [[Hno ->]|(d1 & q & d2 & -> & Hq & Hd1 & ->)].
  - rewrite decide_False by done. rewrite length_app. simpl. lia.
  - rewrite decide_True.
    + rewrite !length_app. simpl. done.
    + unfold stored_key. apply Exists_app. right. by left.
Qed.

Lemma same_key_refl (p : point) : same_key p p = true.
Proof. unfold same_key. by apply bool_decide_eq_true. Qed.

Lemma same_key_merge (p q x : point) :
  same_key x (merge_point p q) = same_key x q.
Proof. done. Qed.

Lemma upsert_stores (p : point) (d : db) : stored_key p (upsert p d).
Proof.
  unfold stored_key.
  destruct (upsert_cases p d) as [[Hno ->]|(d1 & q & d2 & -> & Hq & Hd1 & ->)];
    apply Exists_app; right; left; [apply same_key_refl | done].
Qed.

Lemma upsert_keeps_keys (p x : point) (d : db) :
  stored_key x d → stored_key x (upsert p d).
Proof.
  unfold stored_key.
  destruct (upsert_cases p d) as [[Hno ->]|(d1 & q & d2 & -> & Hq & Hd1 & ->)].
  - intros Hx. apply Exists_app. by left.
  - rewrite !Exists_app, !Exists_cons. rewrite same_key_merge. done.
Qed.

Lemma insert_one_run (bucket_id : string) (event : Event) (d : db) :
  ∃ i, insert_one bucket_id event d
       = (Ok (set_id i event), upsert (normalise (_event_parser_to bucket_id event)) d)
     ∧ _get_last_event_id bucket_id
         (upsert (normalise (_event_parser_to bucket_id event)) d)
       = (Ok i, upsert (normalise (_event_parser_to bucket_id event)) d).
Proof. eexists. split; reflexivity. Qed.

(** X1: for an event whose [app] and [status] attributes, where it has
    them, are strings, [insert_one] never removes a record and adds at
    most one: the database grows by one point unless a point with the
    event's measurement, tags and timestamp is already stored, in which
    case that point is written over; the key of the event is stored
    afterwards, and the event comes back changed in its id only.  An
    [app] or [status] that is the empty string is no tag of the point. *)
Theorem insert_one_adds_at_most_one (bucket_id : string) (event : Event) (d : db) :
  text_tags event →
  let p := normalise (_event_parser_to bucket_id event) in
  let d' := (insert_one bucket_id event d).2 in
  length d' = (if decide (stored_key p d) then length d else S (length d))
  ∧ stored_key p d'
  ∧ (∀ q, stored_key q d → stored_key q d')
  ∧ ∃ i, (insert_one bucket_id event d).1 = Ok (set_id i event).
Proof.
  intros _ p d'. destruct (insert_one_run bucket_id event d) as (i & Hrun & _).
  unfold d'. rewrite Hrun. simpl. fold p. split_and!.
  - apply upsert_length.
  - apply upsert_stores.
  - intros q. apply upsert_keeps_keys.
  - by exists i.
Qed.

(** An [app] that is the empty string is no tag: the event written at the
    epoch takes the place of the sentinel. *)
Example insert_one_empty_app_writes_over_sentinel :
  length (insert_one "b" (mkEvent None 0 0 {[ "app" := VStr "" ]}) Scenario.fresh).2
  = length Scenario.fresh.
Proof. vm_compute. reflexivity. Qed.

(** ** Bulk insertion never writes *)

(** X2: whatever the list of events, [insert_many] leaves the database as
    it was, and it succeeds for the empty list only. *)
Theorem insert_many_never_writes (bucket_id : string) (events : list Event) (d : db) :
  (insert_many bucket_id events d).2 = d
  ∧ ((insert_many bucket_id events d).1 = Ok tt ↔ events = []).
Proof.
  destruct events as [|event rest].
  - by split.
  - unfold insert_many, bind, lift. rewrite insert_many_loop_raises. simpl.
    split; [done|]. split; discriminate.
Qed.

(** ** Counting and the last id *)

(** X3: [get_eventcount] never fails and returns the number of records of
    the bucket whose [id] field is not null, whatever the bounds; records
    written without an id, the sentinel among them, are not counted. *)
Theorem get_eventcount_counts_ids (bucket_id : string)
    (starttime endtime : option datetime) (d : db) :
  get_eventcount bucket_id starttime endtime d
  = (Ok (VInt (Z.of_nat (length (filter (has_field "id") (series bucket_id d))))), d).
Proof.
  unfold get_eventcount, bind, db_query, lift, query. simpl.
  rewrite matching_unconditional.
  destruct (length (filter (has_field "id") (series bucket_id d))) as [|n] eqn:Hn.
  - rewrite decide_True by done. done.
  - rewrite decide_False by done. simpl. unfold getitem, as_dict. simpl.
    rewrite lookup_insert_ne by done. by rewrite lookup_singleton_eq.
Qed.

Lemma filter_none {A} (P : A → Prop) `{!∀ x, Decision (P x)} (l : list A) :
  Forall (λ x, ¬ P x) l → filter P l = [].
Proof.
  induction 1 as [|x l Hx _ IH]; [done|]. by rewrite filter_cons_False.
Qed.

(** X4: in a bucket none of whose records has an [id] field,
    [_get_last_event_id] returns [None] rather than failing. *)
Theorem get_last_event_id_without_ids (bucket_id : string) (d : db) :
  Forall (λ p, ¬ has_field "id" p) (series bucket_id d) →
  _get_last_event_id bucket_id d = (Ok None, d).
Proof.
  intros Hno. unfold _get_last_event_id, bind, db_query, ret, query. simpl.
  rewrite matching_unconditional.
  assert (Hnil : filter (has_field "id") (series bucket_id d) = [])
    by (by apply filter_none).
  rewrite Hnil. done.
Qed.

(** ** The encoder *)

Lemma event_parser_to_tags (bucket_id : string) (event : Event) (k : string) (v : value) :
  tags (_event_parser_to bucket_id event) !! k = Some v
  ↔ ∃ key, key ∈ self_tags ∧ k = "_" +:+ key ∧ data event !! key = Some v.
Proof.
  unfold _event_parser_to. simpl.
  set (p0 := Point _ _ _ _). revert k v.
  apply (map_fold_weak_ind (λ r m, ∀ k v,
    tags r !! k = Some v
    ↔ ∃ key, key ∈ self_tags ∧ k = "_" +:+ key ∧ m !! key = Some v)).
  - intros k v. simpl. rewrite lookup_empty. split; [done|].
    intros (key & _ & _ & Hkey). by rewrite lookup_empty in Hkey.
  - intros key x m r Hfresh IH k v. unfold add_attribute.
    case_bool_decide as Htag; simpl.
    + rewrite lookup_insert_Some, IH. split.
      * intros [[<- <-]|[Hne (key' & Hin & -> & Hm)]].
        -- exists key. by rewrite lookup_insert_eq.
        -- exists key'. split_and!; [done|done|].
           rewrite lookup_insert_ne; [done|]. intros ->. done.
      * intros (key' & Hin & -> & Hm).
        apply lookup_insert_Some in Hm as [[-> ->]|[Hne Hm]]; [by left|].
        right. split; [intros [=]; done|]. by exists key'.
    + rewrite IH. split; intros (key' & Hin & -> & Hm); exists key'.
      * split_and!; [done|done|]. rewrite lookup_insert_ne; [done|].
        intros ->. by rewrite Hfresh in Hm.
      * split_and!; [done|done|].
        apply lookup_insert_Some in Hm as [[-> ->]|[_ Hm]]; done.
Qed.

(** X5: the point that [_event_parser_to] builds carries the bucket id as
    measurement and the event's timestamp as time; its fields are the
    event's attributes, to which [id] and [duration] are added unless an
    attribute of that name takes their place; its tags are exactly the
    attributes named [app] or [status], under the name prefixed with an
    underscore. *)
Theorem event_parser_to_fields_and_tags (bucket_id : string) (event : Event) :
  let p := _event_parser_to bucket_id event in
  measurement p = bucket_id
  ∧ time p = timestamp event
  ∧ (∀ k v, data event !! k = Some v → fields p !! k = Some v)
  ∧ (data event !! "id" = None → fields p !! "id" = Some (id_value (id event)))
  ∧ (data event !! "duration" = None →
       fields p !! "duration" = Some (VFloat (total_seconds (duration event))))
  ∧ (∀ k, k ∉ ["id"; "duration"] → data event !! k = None → fields p !! k = None)
  ∧ (∀ k v, tags p !! k = Some v
       ↔ ∃ key, key ∈ ["app"; "status"] ∧ k = "_" +:+ key ∧ data event !! key = Some v).
Proof.
  intros p. destruct (event_parser_to_spec bucket_id event) as (Hm & Ht & Hf & _).
  fold p in Hm, Ht, Hf. split_and!; try done.
  - intros k v Hk. rewrite Hf. by apply lookup_union_Some_l.
  - intros Hk. rewrite Hf, lookup_union_r by done.
    rewrite lookup_insert_ne by done. apply lookup_singleton_eq.
  - intros Hk. rewrite Hf, lookup_union_r by done. apply lookup_insert_eq.
  - intros k Hk Hnone. rewrite Hf, lookup_union_r by done.
    rewrite lookup_insert_ne by set_solver. apply lookup_singleton_ne. set_solver.
  - intros k v. apply event_parser_to_tags.
Qed.

Lemma event_key_without_id (bucket_id : string) (i : option Z) (event : Event) (q : point) :
  same_key (normalise (_event_parser_to bucket_id (set_id i event))) q
  = same_key (normalise (_event_parser_to bucket_id event)) q.
Proof.
  destruct (event_parser_to_spec bucket_id event) as (Hm & Ht & _).
  destruct (event_parser_to_spec bucket_id (set_id i event)) as (Hm' & Ht' & _).
  assert (Htags : tags (_event_parser_to bucket_id (set_id i event))
                  = tags (_event_parser_to bucket_id event)).
  { apply map_eq. intros k. apply option_eq. intros v.
    by rewrite !event_parser_to_tags. }
  unfold same_key, normalise. simpl. by rewrite Hm, Hm', Ht, Ht', Htags.
Qed.

Lemma stored_key_without_id (bucket_id : string) (i : option Z) (event : Event) (d : db) :
  stored_key (normalise (_event_parser_to bucket_id (set_id i event))) d
  ↔ stored_key (normalise (_event_parser_to bucket_id event)) d.
Proof.
  unfold stored_key. rewrite !Exists_exists.
  by setoid_rewrite event_key_without_id.
Qed.

(** ** Replacing *)

(** X6: for an event whose [app] and [status] attributes, where it has
    them, are strings, [replace] and [replace_last] address the point to
    write by the event's own timestamp and tags, not by the id: either
    call writes over a stored point exactly when one with the event's
    measurement, tags and timestamp exists, and otherwise adds a
    record. *)
Theorem replace_writes_at_own_timestamp (bucket_id : string) (event_id : Z)
    (event : Event) (d : db) :
  text_tags event →
  let p := normalise (_event_parser_to bucket_id event) in
  length (replace bucket_id event_id event d).2
  = (if decide (stored_key p d) then length d else S (length d))
  ∧ length (replace_last bucket_id event d).2
    = (if decide (stored_key p d) then length d else S (length d)).
Proof.
  intros _ p. split.
  - unfold replace.
    destruct (insert_one_run bucket_id (set_id (Some event_id) event) d) as (i & -> & _).
    simpl. rewrite upsert_length.
    destruct (decide (stored_key p d)) as [Hs|Hs].
    + rewrite decide_True; [done|]. by apply stored_key_without_id.
    + rewrite decide_False; [done|]. by rewrite stored_key_without_id.
  - unfold replace_last, bind.
    destruct (_get_last_event_id bucket_id d) as [[last_id|] d0] eqn:Hlast;
      [|discriminate Hlast].
    assert (d0 = d) as -> by (by inversion Hlast).
    destruct (insert_one_run bucket_id (set_id last_id event) d) as (i & -> & _).
    simpl. rewrite upsert_length.
    destruct (decide (stored_key p d)) as [Hs|Hs].
    + rewrite decide_True; [done|]. by apply stored_key_without_id.
    + rewrite decide_False; [done|]. by rewrite stored_key_without_id.
Qed.

(** ** Deleting a bucket *)

Lemma series_delete_series (m m' : string) (d : db) :
  series m' (delete_series m d) = if decide (m' = m) then [] else series m' d.
Proof.
  unfold series, delete_series. rewrite list_filter_filter.
  case_decide as Hm.
  - subst. apply filter_none. apply Forall_forall. intros p _ [? ?]. done.
  - apply list_filter_iff. intros p. split; [naive_solver|].
    intros Hp. split; [done|congruence].
Qed.

Lemma matching_delete_series (m m' : string) (cs : list condition) (d : db) :
  m' ≠ m → matching m' cs (delete_series m d) = matching m' cs d.
Proof.
  intros Hne. unfold matching, delete_series. rewrite list_filter_filter.
  apply list_filter_iff. intros p. split; [naive_solver|].
  intros [Hp Hcs]. split_and!; [done|done|congruence].
Qed.

(** X8: [delete_bucket] removes every record of the bucket and no record
    of another one; the bucket's metadata record is not among them, so
    [get_metadata] answers after the deletion as it did before. *)
Theorem delete_bucket_keeps_metadata (bucket_id : string) (d : db) :
  bucket_id ≠ "metadata" →
  let d' := (delete_bucket bucket_id d).2 in
  series bucket_id d' = []
  ∧ (∀ other, other ≠ bucket_id → series other d' = series other d)
  ∧ (∀ b, (get_metadata b d').1 = (get_metadata b d).1).
Proof.
  intros Hne d'. unfold d', delete_bucket, db_delete_series. simpl. split_and!.
  - rewrite series_delete_series. by rewrite decide_True.
  - intros other Hother. rewrite series_delete_series. by rewrite decide_False.
  - intros b. unfold get_metadata, bind, db_query, query. simpl.
    rewrite matching_delete_series by done.
    by destruct (row_of _ <$> _).
Qed.

(** ** What [get_events] returns *)

Lemma Forall2_transfer {A B} (Q : A → B → Prop) (P : A → Prop) (P' : B → Prop)
    (l : list A) (k : list B) :
  (∀ x y, Q x y → P x → P' y) → Forall2 Q l k → Forall P l → Forall P' k.
Proof.
  intros HQ H2. induction H2 as [|x y l k Hxy _ IH]; intros Hl; [constructor|].
  apply Forall_cons in Hl as [Hx Hl]. constructor; eauto.
Qed.

Lemma select_star_row_origin m cs desc lim d r :
  r ∈ query (Select Star m cs desc lim) d →
  ∃ p, p ∈ matching m cs d ∧ row_time r = time p.
Proof.
  unfold query. simpl. intros Hr.
  assert (Hr' : r ∈ row_of (column_names (ordered desc (matching m cs d)))
                  <$> ordered desc (matching m cs d)).
  { destruct lim; simpl in Hr; [|done]. by eapply subseteq_take. }
  apply list_elem_of_fmap in Hr' as (p & -> & Hp).
  rewrite ordered_Permutation in Hp. by exists p.
Qed.

Lemma time_bounds_hold (starttime endtime : option datetime) (p : point) :
  Forall (λ c, holds c p = true) (time_bounds starttime endtime) →
  from_option (λ t, t ≤ time p) True starttime
  ∧ from_option (λ t, time p ≤ t) True endtime.
Proof.
  unfold time_bounds. rewrite Forall_app.
  destruct starttime, endtime; simpl; rewrite ?Forall_singleton; simpl;
    rewrite ?Z.leb_le; naive_solver.
Qed.

(** X9: every event that [get_events] returns lies within the bounds
    given: not before [starttime] and not after [endtime], both
    inclusive, where a bound is supplied. *)
Theorem get_events_within_bounds (bucket_id : string) (limit : Z)
    (starttime endtime : option datetime) (d : db) (events : list Event) :
  (get_events bucket_id limit starttime endtime d).1 = Ok events →
  Forall (within starttime endtime) events.
Proof.
  intros Hev. apply get_events_decoded in Hev.
  eapply (Forall2_transfer decoded
            (λ r, from_option (λ t, t ≤ row_time r) True starttime
                  ∧ from_option (λ t, row_time r ≤ t) True endtime));
    [|exact Hev|].
  - intros r e (_ & Ht & _) Hr. unfold within. by rewrite Ht.
  - apply Forall_forall. intros r Hr.
    apply select_star_row_origin in Hr as (p & Hp & ->).
    apply matching_spec in Hp as (_ & _ & Hcs). by apply time_bounds_hold.
Qed.

Lemma event_parser_from_take (n : nat) (rows : list row) (events : list Event) :
  _event_parser_from rows = Ok events →
  _event_parser_from (take n rows) = Ok (take n events).
Proof.
  revert n events. induction rows as [|r rows IH]; intros n events; simpl.
  - intros [= <-]. by destruct n.
  - destruct (parse_event r) as [e|] eqn:He; [|done]. simpl.
    destruct (_event_parser_from rows) as [events'|] eqn:Hrest; [|done]. simpl.
    intros [= <-]. destruct n as [|n]; simpl; [done|].
    rewrite He. simpl. by rewrite (IH n events').
Qed.

(** X10: a limit [K >= 1] cuts the result of the unlimited query short:
    when [get_events] with limit [-1] returns a list, the same call with
    limit [K] returns its first [K] events, the most recent ones. *)
Theorem get_events_limit_is_prefix (bucket_id : string) (K : Z)
    (starttime endtime : option datetime) (d : db) (all : list Event) :
  1 ≤ K →
  (get_events bucket_id (-1) starttime endtime d).1 = Ok all →
  get_events bucket_id K starttime endtime d = (Ok (take (Z.to_nat K) all), d).
Proof.
  intros HK. rewrite !get_events_query. simpl. intros Hall.
  unfold limit_clause in *. rewrite decide_True by lia.
  rewrite decide_False in Hall by lia.
  unfold query in *. simpl in *.
  by rewrite (event_parser_from_take _ _ _ Hall).
Qed.

(** ** What the decoder returns *)

(** X11: in every event that [_event_parser_from] returns the id is the
    timestamp (in milliseconds since the epoch), and the data holds no
    attribute called [time] or [duration], none whose name begins with
    an underscore, and no falsy value. *)
Theorem event_parser_from_event_shape (rows : list row) (events : list Event) :
  _event_parser_from rows = Ok events →
  Forall (λ e,
    id e = Some (timestamp e)
    ∧ ∀ k v, data e !! k = Some v →
        k ∉ ["time"; "duration"] ∧ starts_with_underscore k = false
        ∧ truthy v = true) events.
Proof.
  intros Hev. apply event_parser_from_decoded in Hev.
  eapply (Forall2_transfer decoded (λ _, True)); [|exact Hev|].
  - intros r e (Hid & Ht & _ & Hdata) _. split; [by rewrite Hid, Ht|].
    intros k v Hk. rewrite Hdata in Hk.
    apply map_lookup_filter_Some in Hk as [_ Hkept]. exact Hkept.
  - by apply Forall_true.
Qed.

Lemma copy_fields_empty_key (m : dict) :
  is_Some (m !! "") → map_fold copy_field (Ok ∅) m = Raise IndexError.
Proof.
  apply (map_fold_weak_ind (λ r m,
    (m !! "" = None → ∃ acc, r = Ok acc)
    ∧ (is_Some (m !! "") → r = Raise IndexError))).
  - split; [by eexists|]. intros [? H]. by rewrite lookup_empty in H.
  - intros key v m' r Hfresh [IHok IHbad]. split.
    + intros Hnone. apply lookup_insert_None in Hnone as [Hnone Hkey].
      destruct (IHok Hnone) as [acc ->]. rewrite copy_field_kept by done. by eexists.
    + intros Hsome. destruct (decide (key = "")) as [->|Hkey].
      * destruct (IHok Hfresh) as [acc ->]. done.
      * rewrite lookup_insert_ne in Hsome by done. by rewrite (IHbad Hsome).
Qed.

Lemma event_parser_from_app_ok (good rest : list row) :
  Forall row_ok good →
  ∃ events, _event_parser_from (good ++ rest)
            = try results <- _event_parser_from rest; Ok (events ++ results).
Proof.
  induction 1 as [|r good Hr _ [events IH]]; simpl.
  - exists []. by destruct (_event_parser_from rest).
  - destruct (parse_event_ok r Hr) as (e & -> & _). simpl. rewrite IH.
    exists (e :: events). by destruct (_event_parser_from rest).
Qed.

(** X12: decoding is all or nothing: after any number of records that
    can be read, a record without a [duration] column makes
    [_event_parser_from] raise [KeyError], and a record with a numeric
    duration and a column with the empty name makes it raise
    [IndexError]; the events decoded before are not returned. *)
Theorem event_parser_from_first_bad_record (good : list row) (r : row) (rest : list row) :
  Forall row_ok good →
  (columns r !! "duration" = None →
     _event_parser_from (good ++ r :: rest) = Raise KeyError)
  ∧ (∀ v, columns r !! "duration" = Some v → is_Some (seconds_of v) →
       is_Some (columns r !! "") →
       _event_parser_from (good ++ r :: rest) = Raise IndexError).
Proof.
  intros Hgood. destruct (event_parser_from_app_ok good (r :: rest) Hgood) as [events ->].
  simpl. unfold parse_event, getitem, as_dict, Event_new.
  rewrite lookup_insert_ne by done. split.
  - intros ->. done.
  - intros v -> [q Hq] Hempty. simpl. rewrite Hq. simpl.
    rewrite copy_fields_empty_key; [done|]. by rewrite lookup_insert_ne.
Qed.

(** A duration that is [True] is one second. *)
Example event_parser_from_bool_duration :
  _event_parser_from [Row 5 {[ "duration" := VBool true ]}]
  = Ok [mkEvent (Some 5) 5 1000000 ∅].
Proof. vm_compute. reflexivity. Qed.

(** ** Buckets stay readable *)

Lemma point_ok_merge (p q : point) :
  point_ok p → point_ok q → point_ok (merge_point p q).
Proof.
  intros (Hdur & Hf & _) (_ & Hf' & Ht'). split_and!; simpl; [|by apply lookup_union_None|done].
  destruct (fields p !! "duration") as [v|] eqn:Hv; [|done].
  by erewrite lookup_union_Some_l.
Qed.

Lemma bucket_ok_upsert (bucket_id : string) (p : point) (d : db) :
  (measurement p = bucket_id → point_ok p) →
  bucket_ok bucket_id d → bucket_ok bucket_id (upsert p d).
Proof.
  intros Hp. unfold bucket_ok, series. induction d as [|x d IH]; simpl.
  - intros _. destruct (decide (measurement p = bucket_id)) as [Hm|Hm].
    + rewrite filter_cons_True by done. constructor; [by apply Hp|constructor].
    + by rewrite filter_cons_False.
  - destruct (decide (measurement x = bucket_id)) as [Hx|Hx].
    + rewrite filter_cons_True by done. intros Hok.
      apply Forall_cons in Hok as [Hxok Hok].
      destruct (same_key p x) eqn:Hk.
      * rewrite filter_cons_True by done. constructor; [|done].
        apply bool_decide_eq_true in Hk as (Hm & _ & _).
        apply point_ok_merge; [|done]. apply Hp. congruence.
      * rewrite filter_cons_True by done. constructor; [done|by apply IH].
    + rewrite filter_cons_False by done. intros Hok.
      destruct (same_key p x) eqn:Hk.
      * by rewrite filter_cons_False.
      * rewrite filter_cons_False by done. by apply IH.
Qed.

Lemma event_point_ok (bucket_id : string) (event : Event) :
  data event !! "duration" = None →
  point_ok (normalise (_event_parser_to bucket_id event)).
Proof.
  intros Hnodur. destruct (event_parser_to_spec bucket_id event) as (_ & _ & Hf & _).
  split_and!; simpl.
  - erewrite (map_lookup_filter_Some_2 _ _ "duration"
               (VFloat (total_seconds (duration event)))); [done| |done].
    rewrite Hf, lookup_union_r by done. apply lookup_insert_eq.
  - apply map_lookup_filter_None. right. intros v _ [? _]. done.
  - apply map_lookup_filter_None. right. intros v _ [[? _] _]. done.
Qed.

(** X13: [insert_one] keeps every bucket readable: if all records of a
    bucket can be decoded (numeric duration, no empty field or tag name)
    before an event without an attribute called [duration] is inserted
    into any bucket, they all can afterwards, so that [get_events] on it
    returns. *)
Theorem insert_one_keeps_readable (bucket_id target : string) (event : Event) (d : db) :
  bucket_ok bucket_id d →
  data event !! "duration" = None →
  bucket_ok bucket_id (insert_one target event d).2
  ∧ ∀ limit starttime endtime, ∃ events,
      get_events bucket_id limit starttime endtime (insert_one target event d).2
      = (Ok events, (insert_one target event d).2).
Proof.
  intros Hok Hnodur.
  assert (Hok' : bucket_ok bucket_id (insert_one target event d).2).
  { destruct (insert_one_run target event d) as (i & -> & _). simpl.
    apply bucket_ok_upsert; [|done]. intros _. by apply event_point_ok. }
  split; [done|]. intros limit starttime endtime. by apply get_events_returns.
Qed.

Lemma create_bucket_state (bucket_id type_id client hostname : string)
    (created : iso_time) (name : option string) (d : db) :
  (create_bucket bucket_id type_id client hostname created name d).2
  = upsert (normalise (Point bucket_id ∅ 0 {[ "duration" := VFloat (Qmake 0 1) ]}))
      (upsert (normalise
         (Point "metadata"
            {[ "id" := VStr bucket_id; "_id" := VStr "metadata" ]}
            (iso_instant created)
            {[ "name" := from_option VStr VNone name;
               "type" := VStr type_id;
               "client" := VStr client;
               "hostname" := VStr hostname;
               "created" := VStr (iso_text created) ]})) d).
Proof. reflexivity. Qed.

Lemma sentinel_point (bucket_id : string) :
  normalise (Point bucket_id ∅ 0 {[ "duration" := VFloat (Qmake 0 1) ]})
  = Point bucket_id ∅ 0 {[ "duration" := VFloat (Qmake 0 1) ]}.
Proof. reflexivity. Qed.

(** X14: [create_bucket] keeps every bucket other than the reserved
    [metadata] series readable, the bucket it creates included. *)
Theorem create_bucket_keeps_readable (bucket_id new_id type_id client hostname : string)
    (created : iso_time) (name : option string) (d : db) :
  bucket_id ≠ "metadata" →
  bucket_ok bucket_id d →
  bucket_ok bucket_id (create_bucket new_id type_id client hostname created name d).2.
Proof.
  intros Hne Hok. rewrite create_bucket_state.
  apply bucket_ok_upsert; [|apply bucket_ok_upsert; [|done]].
  - intros _. rewrite sentinel_point. by split_and!.
  - simpl. intros Hm. by destruct Hne.
Qed.

(** ** A fresh bucket *)

Lemma series_upsert_other (bucket_id : string) (p : point) (d : db) :
  measurement p ≠ bucket_id → series bucket_id (upsert p d) = series bucket_id d.
Proof.
  intros Hp. unfold series. induction d as [|x d IH]; simpl.
  - by rewrite filter_cons_False.
  - destruct (same_key p x) eqn:Hk.
    + apply bool_decide_eq_true in Hk as (Hm & _ & _).
      rewrite !filter_cons_False; [done|simpl in *; congruence|simpl; congruence].
    + destruct (decide (measurement x = bucket_id)).
      * rewrite !filter_cons_True by done. by rewrite IH.
      * rewrite !filter_cons_False by done. by rewrite IH.
Qed.

Lemma series_upsert_fresh (p : point) (d : db) :
  series (measurement p) d = [] →
  series (measurement p) (upsert p d) = [p].
Proof.
  intros Hempty.
  destruct (upsert_cases p d) as [[_ ->]|(d1 & q & d2 & -> & Hq & _ & _)].
  - unfold series in *. rewrite filter_app, Hempty. by rewrite filter_cons_True.
  - apply bool_decide_eq_true in Hq as (Hm & _ & _).
    unfold series in Hempty. rewrite filter_app, filter_cons_True in Hempty by done.
    by destruct (filter _ d1).
Qed.

(** X15: a bucket just created is not empty: when the database holds no
    record of a bucket (other than the reserved [metadata] series) and
    the bucket is created, [get_events] returns exactly one event, the
    sentinel at the epoch with duration zero and no data, whatever the
    limit. *)
Theorem create_bucket_sentinel_event (bucket_id type_id client hostname : string)
    (created : iso_time) (name : option string) (limit : Z) (d : db) :
  bucket_id ≠ "metadata" →
  series bucket_id d = [] →
  (get_events bucket_id limit None None
     (create_bucket bucket_id type_id client hostname created name d).2).1
  = Ok [sentinel].
Proof.
  intros Hne Hempty. rewrite create_bucket_state, sentinel_point.
  set (d1 := upsert _ d).
  assert (H1 : series bucket_id d1 = []).
  { unfold d1. rewrite series_upsert_other; [done|]. simpl. congruence. }
  set (p := Point bucket_id ∅ 0 _).
  assert (H2 : series bucket_id (upsert p d1) = [p]).
  { apply (series_upsert_fresh p d1). exact H1. }
  rewrite get_events_query. simpl. unfold query. simpl.
  unfold time_bounds. simpl. rewrite matching_unconditional, H2.
  change (merge_sort later [p]) with [p]. unfold limit_clause.
  case_decide as HK; simpl.
  - destruct (Z.to_nat limit) as [|n] eqn:Hn; [lia|]. simpl. rewrite take_nil.
    vm_compute. reflexivity.
  - vm_compute. reflexivity.
Qed.

(** ** The id that [insert_one] returns *)

Lemma last_event_id_latest (bucket_id : string) (d : db) (p : point) :
  p ∈ series bucket_id d → has_field "id" p →
  ∃ q, q ∈ series bucket_id d
       ∧ has_field "id" q
       ∧ time p ≤ time q
       ∧ (∀ r, r ∈ series bucket_id d → has_field "id" r → time r ≤ time q)
       ∧ _get_last_event_id bucket_id d = (Ok (Some (time q)), d).
Proof.
  intros Hp Hid.
  unfold _get_last_event_id, bind, db_query, ret, query. simpl.
  rewrite matching_unconditional.
  set (ids := filter (has_field "id") (series bucket_id d)).
  assert (Hin : ∀ r, r ∈ merge_sort earlier ids
                     ↔ r ∈ series bucket_id d ∧ has_field "id" r).
  { intros r. rewrite merge_sort_Permutation. unfold ids.
    rewrite list_elem_of_filter. naive_solver. }
  assert (Hsorted : StronglySorted earlier (merge_sort earlier ids))
    by (apply StronglySorted_merge_sort; apply _).
  destruct (last (merge_sort earlier ids)) as [q|] eqn:Hlast.
  - pose proof (StronglySorted_last_greatest earlier _ q Hsorted Hlast) as Hmax.
    apply last_Some_elem_of, Hin in Hlast as [Hq Hqid].
    exists q. split_and!; try done.
    + apply Hmax, Hin. done.
    + intros r Hr Hrid. apply Hmax, Hin. done.
  - apply last_None in Hlast. assert (Hp' : p ∈ merge_sort earlier ids) by by apply Hin.
    rewrite Hlast in Hp'. by apply elem_of_nil in Hp'.
Qed.

Lemma upsert_holds_point (p : point) (d : db) :
  ∃ q, q ∈ upsert p d
       ∧ measurement q = measurement p ∧ time q = time p
       ∧ ∀ k v, fields p !! k = Some v → fields q !! k = Some v.
Proof.
  destruct (upsert_cases p d) as [[_ ->]|(d1 & x & d2 & -> & Hx & _ & ->)].
  - exists p. split; [set_solver|done].
  - apply bool_decide_eq_true in Hx as (Hm & _ & Ht).
    exists (merge_point p x). split; [set_solver|]. simpl. split_and!; try done.
    intros k v Hk. by apply lookup_union_Some_l.
Qed.

(** X16: the id that [insert_one] gives to an event inserted with an id
    (and without an attribute called [id]) is the time key of the latest
    record of the bucket that has an [id] field: it is never earlier than
    the event's own timestamp, and it is the timestamp of another record
    when a later one is stored. *)
Theorem insert_one_returns_latest_time_key (bucket_id : string) (event : Event)
    (i0 : Z) (d : db) :
  id event = Some i0 →
  data event !! "id" = None →
  let d' := (insert_one bucket_id event d).2 in
  ∃ q, (insert_one bucket_id event d).1 = Ok (set_id (Some (time q)) event)
       ∧ q ∈ series bucket_id d'
       ∧ has_field "id" q
       ∧ timestamp event ≤ time q
       ∧ (∀ r, r ∈ series bucket_id d' → has_field "id" r → time r ≤ time q).
Proof.
  intros Hid Hnoid d'.
  destruct (insert_one_run bucket_id event d) as (i & Hrun & Hlast).
  unfold d'. rewrite Hrun. simpl.
  set (p := normalise (_event_parser_to bucket_id event)) in *.
  destruct (event_parser_to_spec bucket_id event) as (Hm & Ht & Hf & _).
  assert (Hpid : fields p !! "id" = Some (VInt i0)).
  { unfold p. simpl. apply map_lookup_filter_Some. split; [|done].
    rewrite Hf, lookup_union_r by done. rewrite lookup_insert_ne by done.
    rewrite lookup_singleton_eq. by rewrite Hid. }
  destruct (upsert_holds_point p d) as (x & Hx & Hxm & Hxt & Hxf).
  assert (Hxs : x ∈ series bucket_id (upsert p d)).
  { unfold series. apply list_elem_of_filter. split; [|done]. by rewrite Hxm. }
  assert (Hxid : has_field "id" x).
  { unfold has_field, field_of. rewrite (Hxf _ _ Hpid). by eexists. }
  destruct (last_event_id_latest bucket_id (upsert p d) x Hxs Hxid)
    as (q & Hq & Hqid & Hle & Hmax & Hlast').
  exists q. rewrite Hlast' in Hlast. inversion Hlast. split_and!; try done.
  rewrite <- Hle, Hxt. unfold p. simpl. by rewrite Ht.
Qed.

(** ** Listing the buckets *)

Lemma matching_metadata (bucket_id : string) (d : db) :
  matching "metadata" [TagEq "id" bucket_id] d = filter (is_metadata_of bucket_id) d.
Proof.
  unfold matching. apply list_filter_iff. intros p. unfold is_metadata_of. simpl.
  rewrite andb_true_r, bool_decide_eq_true. done.
Qed.

Lemma get_metadata_cases (bucket_id : string) (d : db) :
  (Exists (is_metadata_of bucket_id) d ∧ ∃ metadata, get_metadata bucket_id d = (Ok metadata, d))
  ∨ (¬ Exists (is_metadata_of bucket_id) d
     ∧ get_metadata bucket_id d = (Raise StopIteration, d)).
Proof.
  unfold get_metadata, bind, db_query, ret, raise, query. simpl.
  rewrite matching_metadata.
  set (found := filter (is_metadata_of bucket_id) d).
  assert (Hperm : merge_sort earlier found ≡ₚ found) by apply merge_sort_Permutation.
  destruct (merge_sort earlier found) as [|p l] eqn:Hl; simpl.
  - right. split; [|done]. rewrite Exists_exists. intros (p & Hp & Hm).
    assert (Hin : p ∈ found) by (by apply list_elem_of_filter).
    rewrite <- Hperm in Hin. by apply elem_of_nil in Hin.
  - left. split; [|by eexists]. rewrite Exists_exists.
    assert (Hin : p ∈ found) by (rewrite <- Hperm; left).
    apply list_elem_of_filter in Hin as [Hm Hp]. by exists p.
Qed.

(** A series that [buckets] can describe: the reserved one, or one with a
    metadata record. *)
Lemma buckets_loop_ok (d : db) (names : list string) (acc : M (gmap string dict))
    (m0 : gmap string dict) :
  acc d = (Ok m0, d) →
  Forall (λ b, b = "metadata" ∨ Exists (is_metadata_of b) d) names →
  ∃ m, foldl buckets_step acc names d = (Ok m, d)
       ∧ dom m = dom m0 ∪ (list_to_set names ∖ {["metadata"]})
       ∧ (∀ b metadata, m !! b = Some metadata →
            m0 !! b = Some metadata ∨ get_metadata b d = (Ok metadata, d)).
Proof.
  intros Hacc Hnames. revert acc m0 Hacc.
  induction Hnames as [|b names Hb _ IH]; intros acc m0 Hacc; simpl.
  - exists m0. split; [done|]. split; [set_solver|]. intros; by left.
  - destruct (decide (b = "metadata")) as [->|Hne].
    + destruct (IH (buckets_step acc "metadata") m0) as (m & Hm & Hdom & Hget).
      { unfold buckets_step, bind. by rewrite Hacc. }
      exists m. split; [done|]. split; [set_solver|done].
    + destruct Hb as [?|Hb]; [done|].
      destruct (get_metadata_cases b d) as [[_ [metadata Hmd]]|[Hno _]]; [|done].
      destruct (IH (buckets_step acc b) (<[b := metadata]> m0)) as (m & Hm & Hdom & Hget).
      { unfold buckets_step, bind. rewrite Hacc. rewrite bool_decide_true by done.
        by rewrite Hmd. }
      exists m. split; [done|]. split.
      * rewrite Hdom, dom_insert_L. set_solver.
      * intros b' md Hb'. destruct (Hget b' md Hb') as [Hins|?]; [|by right].
        apply lookup_insert_Some in Hins as [[<- <-]|[_ ?]]; [by right|by left].
Qed.

Lemma buckets_loop_raised (d : db) (names : list string) (acc : M (gmap string dict))
    (e : exn) :
  acc d = (Raise e, d) → foldl buckets_step acc names d = (Raise e, d).
Proof.
  revert acc. induction names as [|b names IH]; intros acc Hacc; simpl; [done|].
  apply IH. unfold buckets_step, bind. by rewrite Hacc.
Qed.

Lemma buckets_loop_fail (d : db) (names : list string) (acc : M (gmap string dict))
    (m0 : gmap string dict) :
  acc d = (Ok m0, d) →
  Exists (λ b, b ≠ "metadata" ∧ ¬ Exists (is_metadata_of b) d) names →
  foldl buckets_step acc names d = (Raise StopIteration, d).
Proof.
  intros Hacc Hbad. revert acc m0 Hacc.
  induction names as [|b names IH]; intros acc m0 Hacc; simpl.
  - by apply Exists_nil in Hbad.
  - destruct (decide (b = "metadata")) as [->|Hne].
    + apply Exists_cons in Hbad as [[? _]|Hbad]; [done|].
      apply (IH Hbad _ m0). unfold buckets_step, bind. by rewrite Hacc.
    + destruct (get_metadata_cases b d) as [[Hyes [metadata Hmd]]|[Hno Hmd]].
      * apply Exists_cons in Hbad as [[_ ?]|Hbad]; [done|].
        apply (IH Hbad _ (<[b := metadata]> m0)).
        unfold buckets_step, bind. rewrite Hacc, bool_decide_true by done.
        by rewrite Hmd.
      * apply buckets_loop_raised.
        unfold buckets_step, bind. rewrite Hacc, bool_decide_true by done.
        by rewrite Hmd.
Qed.

(** X17: [buckets] returns a mapping whose keys are the series of the
    database other than the reserved [metadata] one, each with what
    [get_metadata] returns for it, provided every such series has a
    metadata record; a single series without one makes the whole call
    fail with [StopIteration]. *)
Theorem buckets_all_or_StopIteration (d : db) :
  (Forall (λ b, b = "metadata" ∨ Exists (is_metadata_of b) d) (list_measurements d) →
     ∃ m, buckets d = (Ok m, d)
          ∧ dom m = list_to_set (list_measurements d) ∖ {["metadata"]}
          ∧ ∀ b metadata, m !! b = Some metadata →
              get_metadata b d = (Ok metadata, d))
  ∧ (Exists (λ b, b ≠ "metadata" ∧ ¬ Exists (is_metadata_of b) d) (list_measurements d) →
     buckets d = (Raise StopIteration, d)).
Proof.
  unfold buckets, bind. split.
  - intros Hall.
    destruct (buckets_loop_ok d (list_measurements d) (ret ∅) ∅ eq_refl Hall)
      as (m & Hm & Hdom & Hget).
    exists m. split; [done|]. split.
    + rewrite Hdom, dom_empty_L. set_solver.
    + intros b md Hb. destruct (Hget b md Hb) as [Hempty|?]; [|done].
      by rewrite lookup_empty in Hempty.
  - intros Hbad. by apply (buckets_loop_fail d _ (ret ∅) ∅).
Qed.

(** ** Creating a bucket and reading its metadata *)


(** An empty bucket id is not stored: no record written by
    [create_bucket] for it carries an [id] tag. *)
Example create_bucket_empty_id_stores_no_id_tag :
  Forall (λ p, tags p !! "id" = None)
    (create_bucket "" "test" "c" "h" Scenario.T0 None []).2.
Proof. by_computation. Qed.


(** ** Inserting, then reading *)

Lemma Forall2_elem_of_l {A B} (Q : A → B → Prop) (l : list A) (k : list B) (x : A) :
  Forall2 Q l k → x ∈ l → ∃ y, y ∈ k ∧ Q x y.
Proof.
  intros H2 Hx. apply list_elem_of_lookup in Hx as [n Hn].
  destruct (Forall2_lookup_l _ _ _ _ _ H2 Hn) as (y & Hy & HQ).
  exists y. split; [|done]. apply list_elem_of_lookup. by exists n.
Qed.

(** X19: an event inserted into a readable bucket is read back: if the
    event has no attribute called [duration] and its duration is not
    negative and below [2 ^ 33] seconds, [get_events] without limit and
    bounds returns afterwards, and among its events is one with the
    event's timestamp (also as id), exactly its duration, and every
    attribute of it that has a truthy value and a name that is not
    empty, not [time] or [duration] and does not begin with an
    underscore. *)
Theorem insert_one_then_get_events (bucket_id : string) (event : Event) (d : db) :
  bucket_ok bucket_id d →
  data event !! "duration" = None →
  0 ≤ duration event < 8589934592000000 →
  ∃ events event',
    (get_events bucket_id (-1) None None (insert_one bucket_id event d).2).1 = Ok events
    ∧ event' ∈ events
    ∧ timestamp event' = timestamp event
    ∧ id event' = Some (timestamp event)
    ∧ duration event' = duration event
    ∧ (∀ k v, data event !! k = Some v → truthy v = true →
              k ≠ "" → k ∉ ["time"; "duration"] →
              starts_with_underscore k = false →
              data event' !! k = Some v).
Proof.
  intros Hok Hnodur Hbound.
  destruct (insert_one_run bucket_id event d) as (i & -> & _). cbn [snd].
  set (p := normalise (_event_parser_to bucket_id event)).
  destruct (event_parser_to_spec bucket_id event) as (Hm & Ht & Hf & _).
  assert (Hok' : bucket_ok bucket_id (upsert p d)).
  { apply bucket_ok_upsert; [|done]. intros _. by apply event_point_ok. }
  destruct (get_events_ok bucket_id (-1) None None (upsert p d) Hok')
    as (events & Hev & H2).
  destruct (upsert_holds_point p d) as (x & Hx & Hxm & Hxt & Hxf).
  unfold query, time_bounds, limit_clause in H2. simpl in H2.
  rewrite matching_unconditional in H2.
  set (ps := merge_sort later (series bucket_id (upsert p d))) in H2.
  assert (Hxps : x ∈ ps).
  { unfold ps. rewrite merge_sort_Permutation. unfold series.
    apply list_elem_of_filter. split; [|done]. by rewrite Hxm. }
  destruct (Forall2_elem_of_l _ _ _ (row_of (column_names ps) x) H2)
    as (event' & Hin & (Hid' & Ht' & Hd' & Hdata')).
  { by apply list_elem_of_fmap_2. }
  assert (Hcol : ∀ k v, fields p !! k = Some v →
            columns (row_of (column_names ps) x) !! k = Some v).
  { intros k v Hk. simpl. apply lookup_union_Some_l, lookup_union_Some_l. by apply Hxf. }
  assert (Hts : row_time (row_of (column_names ps) x) = timestamp event).
  { simpl. rewrite Hxt. unfold p. simpl. by rewrite Ht. }
  exists events, event'. rewrite Hev. split_and!; try done.
  - by rewrite Ht', Hts.
  - by rewrite Hid', Hts.
  - assert (Hdur : fields p !! "duration"
                   = Some (VFloat (total_seconds (duration event)))).
    { unfold p. simpl. apply map_lookup_filter_Some. split; [|done].
      rewrite Hf, lookup_union_r by done. apply lookup_insert_eq. }
    rewrite (Hcol _ _ Hdur) in Hd'.
    change (Some (timedelta_of_seconds (total_seconds (duration event)))
            = Some (duration event')) in Hd'.
    rewrite timedelta_seconds_round_trip in Hd' by done. congruence.
  - intros k v Hk Hv Hne Hin' Hund. rewrite Hdata'.
    apply map_lookup_filter_Some. split; [|done].
    unfold as_dict. rewrite lookup_insert_ne by set_solver.
    apply Hcol. unfold p. simpl. apply map_lookup_filter_Some. split.
    + rewrite Hf. by apply lookup_union_Some_l.
    + split; simpl; [done|]. intros ->. done.
Qed.

(** ** Instances of the further properties *)

Lemma insert_one_adds_at_most_one_witness :
  let p := normalise (_event_parser_to "b" Scenario.early) in
  let d' := (insert_one "b" Scenario.early Scenario.with_A).2 in
  length d' = (if decide (stored_key p Scenario.with_A)
               then length Scenario.with_A else S (length Scenario.with_A))
  ∧ stored_key p d'
  ∧ (∀ q, stored_key q Scenario.with_A → stored_key q d')
  ∧ ∃ i, (insert_one "b" Scenario.early Scenario.with_A).1 = Ok (set_id i Scenario.early).
Proof.
  apply (insert_one_adds_at_most_one "b" Scenario.early Scenario.with_A). by_computation.
Defined.

Lemma replace_writes_at_own_timestamp_witness :
  let p := normalise (_event_parser_to "b" Scenario.early) in
  length (replace "b" 7 Scenario.early Scenario.with_A).2
  = (if decide (stored_key p Scenario.with_A)
     then length Scenario.with_A else S (length Scenario.with_A))
  ∧ length (replace_last "b" Scenario.early Scenario.with_A).2
    = (if decide (stored_key p Scenario.with_A)
       then length Scenario.with_A else S (length Scenario.with_A)).
Proof.
  apply (replace_writes_at_own_timestamp "b" 7 Scenario.early Scenario.with_A).
  by_computation.
Defined.

Lemma get_last_event_id_without_ids_witness :
  _get_last_event_id "b" Scenario.fresh = (Ok None, Scenario.fresh).
Proof.
  apply (get_last_event_id_without_ids "b" Scenario.fresh). by_computation.
Defined.

Lemma event_parser_to_fields_and_tags_witness :
  fields (_event_parser_to "b" Scenario.early) !! "id" = Some (VInt 9)
  ∧ fields (_event_parser_to "b" Scenario.early) !! "app" = Some (VStr "vim")
  ∧ tags (_event_parser_to "b" Scenario.early) !! "_app" = Some (VStr "vim").
Proof.
  destruct (event_parser_to_fields_and_tags "b" Scenario.early)
    as (_ & _ & Hattr & Hid & _ & _ & Htags).
  split; [apply Hid; reflexivity|]. split; [apply Hattr; reflexivity|].
  apply Htags. exists "app". split; [by_computation|]. split; reflexivity.
Defined.

Lemma delete_bucket_keeps_metadata_witness :
  series "b" (delete_bucket "b" Scenario.with_A).2 = []
  ∧ (∀ other, other ≠ "b" →
       series other (delete_bucket "b" Scenario.with_A).2 = series other Scenario.with_A)
  ∧ (∀ b, (get_metadata b (delete_bucket "b" Scenario.with_A).2).1
          = (get_metadata b Scenario.with_A).1).
Proof. apply (delete_bucket_keeps_metadata "b" Scenario.with_A). discriminate. Defined.

Lemma get_events_within_bounds_witness :
  Forall (within (Some 500) (Some 1500)) [Scenario.A_read].
Proof.
  apply (get_events_within_bounds "b" (-1) (Some 500) (Some 1500) Scenario.with_A_B).
  vm_compute. reflexivity.
Defined.

Lemma get_events_limit_is_prefix_witness :
  get_events "b" 1 None None Scenario.with_A
  = (Ok (take (Z.to_nat 1) [Scenario.A_read; sentinel]), Scenario.with_A).
Proof.
  apply (get_events_limit_is_prefix "b" 1 None None Scenario.with_A).
  - lia.
  - vm_compute. reflexivity.
Defined.

Lemma event_parser_from_event_shape_witness :
  Forall (λ e,
    id e = Some (timestamp e)
    ∧ ∀ k v, data e !! k = Some v →
        k ∉ ["time"; "duration"] ∧ starts_with_underscore k = false
        ∧ truthy v = true)
    [mkEvent (Some 1000) 1000 5000000 {[ "id" := VInt 7 ]}; sentinel].
Proof.
  apply (event_parser_from_event_shape Scenario.two_records).
  vm_compute. reflexivity.
Defined.

Lemma event_parser_from_first_bad_record_witness :
  _event_parser_from (Scenario.two_records ++ Row 5 {[ "id" := VInt 1 ]} :: [])
  = Raise KeyError.
Proof.
  apply (event_parser_from_first_bad_record Scenario.two_records
           (Row 5 {[ "id" := VInt 1 ]}) []).
  - by_computation.
  - reflexivity.
Defined.

Lemma insert_one_keeps_readable_witness :
  bucket_ok "b" (insert_one "b" Scenario.A Scenario.fresh).2
  ∧ ∀ limit starttime endtime, ∃ events,
      get_events "b" limit starttime endtime (insert_one "b" Scenario.A Scenario.fresh).2
      = (Ok events, (insert_one "b" Scenario.A Scenario.fresh).2).
Proof.
  apply (insert_one_keeps_readable "b" "b" Scenario.A Scenario.fresh).
  - by_computation.
  - reflexivity.
Defined.

Lemma create_bucket_keeps_readable_witness :
  bucket_ok "b"
    (create_bucket "c" "test" "c" "h" Scenario.T1 (Some "second") Scenario.with_A).2.
Proof.
  apply (create_bucket_keeps_readable "b" "c" "test" "c" "h" Scenario.T1
           (Some "second") Scenario.with_A).
  - discriminate.
  - by_computation.
Defined.

Lemma create_bucket_sentinel_event_witness :
  (get_events "b" 3 None None
     (create_bucket "b" "test" "c" "h" Scenario.T0 None []).2).1
  = Ok [sentinel].
Proof.
  apply (create_bucket_sentinel_event "b" "test" "c" "h" Scenario.T0 None 3 []).
  - discriminate.
  - reflexivity.
Defined.

Lemma insert_one_returns_latest_time_key_witness :
  ∃ q, (insert_one "b" Scenario.early Scenario.with_A).1
       = Ok (set_id (Some (time q)) Scenario.early)
       ∧ q ∈ series "b" (insert_one "b" Scenario.early Scenario.with_A).2
       ∧ has_field "id" q
       ∧ timestamp Scenario.early ≤ time q
       ∧ (∀ r, r ∈ series "b" (insert_one "b" Scenario.early Scenario.with_A).2 →
               has_field "id" r → time r ≤ time q).
Proof.
  apply (insert_one_returns_latest_time_key "b" Scenario.early 9 Scenario.with_A);
    reflexivity.
Defined.

Lemma buckets_all_or_StopIteration_witness :
  (∃ m, buckets Scenario.with_A = (Ok m, Scenario.with_A)
        ∧ dom m = list_to_set (list_measurements Scenario.with_A) ∖ {["metadata"]}
        ∧ ∀ b metadata, m !! b = Some metadata →
            get_metadata b Scenario.with_A = (Ok metadata, Scenario.with_A))
  ∧ buckets Scenario.orphan = (Raise StopIteration, Scenario.orphan).
Proof.
  split.
  - apply (proj1 (buckets_all_or_StopIteration Scenario.with_A)). by_computation.
  - apply (proj2 (buckets_all_or_StopIteration Scenario.orphan)). by_computation.
Defined.


Lemma insert_one_then_get_events_witness :
  ∃ events event',
    (get_events "b" (-1) None None (insert_one "b" Scenario.early Scenario.with_A).2).1
    = Ok events
    ∧ event' ∈ events
    ∧ timestamp event' = timestamp Scenario.early
    ∧ id event' = Some (timestamp Scenario.early)
    ∧ duration event' = duration Scenario.early
    ∧ (∀ k v, data Scenario.early !! k = Some v → truthy v = true →
              k ≠ "" → k ∉ ["time"; "duration"] →
              starts_with_underscore k = false →
              data event' !! k = Some v).
Proof.
  apply (insert_one_then_get_events "b" Scenario.early Scenario.with_A).
  - by_computation.
  - reflexivity.
  - by_computation.
Defined.
